(** * Noughts and Crosses on an n x n board: rules engine and match runner

    A shallow embedding of [rules.py] and of the [TicTacToe] class of
    [tictactoe.py], followed by the properties of the rules and of the turn
    loop.

    Conventions of the embedding.
    - The board is a [numpy] array created by [np.zeros((n, n))]: a grid of
      floats that only ever hold [0.0], [1.0] and [-1.0].  Sums of at most
      2^53 such values are exact, so cells and sums are integers here
      ([Z]), and the grid is a list of rows.
    - Coordinates are Python integers, hence [Z]: a move may name a negative
      or too large index.  [numpy] wraps an index in [-n, 0) around and
      raises [IndexError] outside [-n, n); both are modelled.
    - Python exceptions are values of a small error monad.
    - Player objects live in a store addressed by references; the runner's
      player collection is a list of references, which [random.shuffle]
      permutes in place. *)

From stdpp Require Import base list strings gmap pretty sorting.
From Stdlib Require Import ZArith Lia.

Local Open Scope Z_scope.

(** ** Exceptions and the error monad *)

Inductive exn : Type :=
| ValueError (msg : string)
| IndexError.

Inductive result (A : Type) : Type :=
| Ok (a : A)
| Raise (e : exn).
Arguments Ok {A} a.
Arguments Raise {A} e.

#[global] Instance result_ret : MRet result := λ A a, Ok a.
#[global] Instance result_bind : MBind result := λ A B k m,
  match m with
  | Ok a => k a
  | Raise e => Raise e
  end.

(** ** rules.py *)

Module rules.

Definition EMPTY : Z := 0.
Definition NOUGHT : Z := 1.
Definition CROSS : Z := -1.
Definition sides : list Z := [CROSS; NOUGHT].

Definition __tokens : gmap Z string :=
  <[EMPTY := " "]> (<[NOUGHT := "o"]> (<[CROSS := "x"]> ∅)).
Definition __names : gmap Z string :=
  <[EMPTY := " "]> (<[NOUGHT := "Noughts"]> (<[CROSS := "Crosses"]> ∅)).

(** [token]: the dictionary entry, ["?"] on [KeyError]. *)
Definition token (value : Z) : string :=
  match __tokens !! value with
  | Some t => t
  | None => "?"
  end.

Definition side_name (value : Z) : string :=
  match __names !! value with
  | Some t => t
  | None => "?"
  end.

Definition opponent (side : Z) : Z := - side.

Abbreviation Board := (list (list Z)).
Abbreviation Move := (Z * Z)%type.

(** *** numpy primitives used by the rules *)

(** [board.shape]: rows, and columns (those of the first row; the runner
    only builds square grids). *)
Definition shape0 (board : Board) : nat := length board.
Definition shape1 (board : Board) : nat :=
  match board with
  | [] => O
  | row :: _ => length row
  end.

(** An index [i] into an axis of length [n]: itself in [0, n), wrapped in
    [-n, 0), [IndexError] otherwise. *)
Definition np_index (n : nat) (i : Z) : result nat :=
  if decide (0 ≤ i < Z.of_nat n) then Ok (Z.to_nat i)
  else if decide (- Z.of_nat n ≤ i < 0) then Ok (Z.to_nat (i + Z.of_nat n))
  else Raise IndexError.

Definition np_sum (l : list Z) : Z := foldr Z.add 0 l.

(** [board[x]] *)
Definition np_row (board : Board) (x : Z) : result (list Z) :=
  i ← np_index (shape0 board) x;
  match board !! i with
  | Some row => Ok row
  | None => Raise IndexError
  end.

(** [board[:, y]] *)
Definition np_col (board : Board) (y : Z) : result (list Z) :=
  j ← np_index (shape1 board) y;
  Ok (omap (λ row : list Z, row !! j) board).

(** [board.diagonal()]: the cells (i, i). *)
Fixpoint diagonal_from (k : nat) (board : Board) : list Z :=
  match board with
  | [] => []
  | row :: rest =>
      match row !! k with
      | Some v => v :: diagonal_from (S k) rest
      | None => []
      end
  end.
Definition np_diagonal (board : Board) : list Z := diagonal_from O board.

(** [np.fliplr(board)]: every row reversed. *)
Definition np_fliplr (board : Board) : Board := map reverse board.

(** [np.transpose(np.nonzero(board == EMPTY))]: the coordinates of the cells
    equal to [EMPTY], row-major. *)
Fixpoint nonzero_row (i j : Z) (row : list Z) : list Move :=
  match row with
  | [] => []
  | v :: rest =>
      (if decide (v = EMPTY) then [(i, j)] else []) ++ nonzero_row i (j + 1) rest
  end.

Fixpoint nonzero_rows (i : Z) (board : Board) : list Move :=
  match board with
  | [] => []
  | row :: rest => nonzero_row i 0 row ++ nonzero_rows (i + 1) rest
  end.

Definition empty_cells (board : Board) : list Move := nonzero_rows 0 board.

(** [list(move) in rules.empty_cells(board).tolist()] *)
Definition valid_move (board : Board) (move : Move) : bool :=
  bool_decide (move ∈ empty_cells board).

Definition winning_move (board : Board) (move : Move) : result bool :=
  let n := Z.of_nat (shape0 board) in
  let '(x, y) := move in
  row ← np_row board x;
  if decide (Z.abs (np_sum row) = n) then Ok true
  else
    col ← np_col board y;
    if decide (Z.abs (np_sum col) = n) then Ok true
    else if decide (x = y ∧ Z.abs (np_sum (np_diagonal board)) = n) then Ok true
    else if decide (x = (n - 1) - y
                    ∧ Z.abs (np_sum (np_diagonal (np_fliplr board))) = n)
         then Ok true
    else Ok false.

(** [EMPTY not in board] *)
Definition board_full (board : Board) : bool :=
  bool_decide (Forall (Forall (λ v, v ≠ EMPTY)) board).

(** [sep.join(parts)] *)
Fixpoint join (sep : string) (parts : list string) : string :=
  match parts with
  | [] => ""
  | [p] => p
  | p :: rest => p +:+ sep +:+ join sep rest
  end.

Definition newline : string := String (Ascii.ascii_of_nat 10) "".

Definition row_str (row : list Z) : string := join "|" (map token row).

Definition board_str (board : Board) : string :=
  join newline (map row_str board).

End rules.

(** ** tictactoe.py *)

Module tictactoe.
Import rules.

(** A reference to a player object. *)
Definition ref : Type := nat.

Inductive loglevel : Type := Info | Fatal.

(** What the runner does to its collaborators, in order. *)
Inductive event : Type :=
| EvStart (p : ref)
| EvMove (p : ref) (snapshot : Board) (move : Move)
| EvFinish (p : ref) (winner : option Z)
| EvLog (level : loglevel) (msg : string).

Section Runner.

(** The players are external collaborators: their private state and their
    three methods are parameters.  A method sees the whole object and
    yields the object's next private state; [move] also yields the
    coordinate pair.  The methods return (they neither raise nor run
    forever) and reach nothing of the runner but the copy of the board they
    are handed; the attribute [side] is written by [set_players] only. *)
Context {PState : Type}.

Record PlayerObj : Type := mkPlayer {
  side : Z;
  cls : string;        (* type(player).__name__ *)
  pstate : PState
}.

Variable player_start : PlayerObj → PState.
Variable player_move : PlayerObj → Board → Move * PState.
Variable player_finish : PlayerObj → option Z → PState.

(** The raw output of the random generator: the k-th draw.  [randbelow]
    below reduces it into the range asked for. *)
Variable entropy : nat → nat.

(** The store of player objects, the fields of the [TicTacToe] instance,
    the position in the random stream and the log of events. *)
Record World : Type := mkWorld {
  heap : ref → PlayerObj;
  board : Board;
  players : list ref;
  logger : bool;
  shuffle : bool;
  rng : nat;
  trace : list event
}.

Definition with_heap (h : ref → PlayerObj) (w : World) : World :=
  mkWorld h (board w) (players w) (logger w) (shuffle w) (rng w) (trace w).
Definition with_board (b : Board) (w : World) : World :=
  mkWorld (heap w) b (players w) (logger w) (shuffle w) (rng w) (trace w).
Definition with_players (ps : list ref) (w : World) : World :=
  mkWorld (heap w) (board w) ps (logger w) (shuffle w) (rng w) (trace w).
Definition with_rng (k : nat) (w : World) : World :=
  mkWorld (heap w) (board w) (players w) (logger w) (shuffle w) k (trace w).
Definition emit (e : event) (w : World) : World :=
  mkWorld (heap w) (board w) (players w) (logger w) (shuffle w) (rng w)
          (trace w ++ [e]).

Definition store (p : ref) (o : PlayerObj) (h : ref → PlayerObj)
  : ref → PlayerObj :=
  λ q, if decide (q = p) then o else h q.

Definition set_side (s : Z) (o : PlayerObj) : PlayerObj :=
  mkPlayer s (cls o) (pstate o).
Definition set_pstate (st : PState) (o : PlayerObj) : PlayerObj :=
  mkPlayer (side o) (cls o) st.

(** [if self.logger: self.logger.<level>(msg)] *)
Definition log (level : loglevel) (msg : string) (w : World) : World :=
  if logger w then emit (EvLog level msg) w else w.

(** *** set_players *)

Definition assign_sides (ps : list ref) (h : ref → PlayerObj)
  : ref → PlayerObj :=
  foldl (λ h' '(p, s), store p (set_side s (h' p)) h') h (zip ps sides).

Definition set_players (ps : list ref) (w : World) : result World :=
  if decide (length ps ≠ length sides) then
    Raise (ValueError ("Incorrect number of players, expected "
                       +:+ pretty (length sides) +:+ "."))
  else
    Ok (with_players ps (with_heap (assign_sides ps (heap w)) w)).

(** [TicTacToe(players, n, shuffle, logger)] over a store [h]. *)
Definition init (h : ref → PlayerObj) (ps : list ref) (n : nat)
    (shuf : bool) (lg : bool) (k : nat) : result World :=
  w ← set_players ps (mkWorld h (replicate n (replicate n 0)) [] false false k []);
  Ok (mkWorld (heap w) (board w) (players w) lg shuf (rng w) (trace w)).

(** *** random.shuffle

    [for i in reversed(range(1, len(x))): j = randbelow(i + 1);
     x[i], x[j] = x[j], x[i]] *)

Definition swap {A : Type} (i j : nat) (x : list A) : list A :=
  match x !! i, x !! j with
  | Some a, Some b => <[i := b]> (<[j := a]> x)
  | _, _ => x
  end.

Definition randbelow (k : nat) (bound : nat) : nat :=
  (entropy k `mod` bound)%nat.

Fixpoint shuffle_down {A : Type} (i : nat) (k : nat) (x : list A)
  : list A * nat :=
  match i with
  | O => (x, k)
  | S i' => shuffle_down i' (S k) (swap i (randbelow k (S i)) x)
  end.

Definition random_shuffle {A : Type} (k : nat) (x : list A) : list A * nat :=
  shuffle_down (length x - 1) k x.

(** *** play *)

(** [self.board[move] = side] *)
Definition board_set (b : Board) (move : Move) (v : Z) : result Board :=
  let '(x, y) := move in
  i ← np_index (shape0 b) x;
  j ← np_index (shape1 b) y;
  match b !! i with
  | Some row => Ok (<[i := <[j := v]> row]> b)
  | None => Raise IndexError
  end.

Definition move_str (move : Move) : string :=
  "(" +:+ pretty (fst move) +:+ ", " +:+ pretty (snd move) +:+ ")".

(** The texts of the two log records and of the exception of [play]. *)
Definition win_msg (b : Board) (o : PlayerObj) : string :=
  board_str b +:+ newline +:+ "Game over: " +:+ side_name (side o)
  +:+ " win (" +:+ cls o +:+ ")".
Definition draw_msg (b : Board) : string :=
  board_str b +:+ newline +:+ "Game over: Draw".
Definition invalid_msg (move : Move) : string :=
  "Not a valid move: " +:+ move_str move.

(** [move = player.move(self.board.copy())]: the request is recorded with
    the copy the player receives, and the player's state moves on. *)
Definition request (p : ref) (w : World) : Move * World :=
  let o := heap w p in
  let '(move, st) := player_move o (board w) in
  (move, emit (EvMove p (board w) move)
              (with_heap (store p (set_pstate st o) (heap w)) w)).

(** One pass of the body of [for player in player_cycle]: [inl] when the
    body returns or raises, [inr] when the loop goes on. *)
Definition turn (p : ref) (w : World)
  : (result (option Z) * World) + World :=
  let '(move, w1) := request p w in
  let me := heap w1 p in
  if valid_move (board w1) move then
    match board_set (board w1) move (side me) with
    | Raise e => inl (Raise e, w1)
    | Ok b =>
        let w2 := with_board b w1 in
        match winning_move (board w2) move with
        | Raise e => inl (Raise e, w2)
        | Ok true =>
            inl (Ok (Some (side me)), log Info (win_msg (board w2) me) w2)
        | Ok false =>
            if board_full (board w2) then
              inl (Ok None, log Info (draw_msg (board w2)) w2)
            else inr w2
        end
    end
  else
    inl (Raise (ValueError (invalid_msg move)), log Fatal "Invalid move" w1).

(** [cycle(ps)]: the k-th element it yields, if it yields any. *)
Definition cycle_nth (ps : list ref) (k : nat) : option ref :=
  ps !! (k `mod` length ps)%nat.

(** The loop from its k-th pass on.  [None]: the passes allowed by [fuel]
    did not reach a [return] or a [raise]. *)
Fixpoint play_loop (fuel : nat) (ps : list ref) (k : nat) (w : World)
  : option (result (option Z) * World) :=
  match fuel with
  | O => None
  | S fuel' =>
      match cycle_nth ps k with
      | None => Some (Ok None, w)   (* empty cycle: the loop ends at once *)
      | Some p =>
          match turn p w with
          | inl r => Some r
          | inr w' => play_loop fuel' ps (S k) w'
          end
      end
  end.

(** [if self.shuffle: random.shuffle(self.players())]: the collection
    itself is permuted. *)
Definition enter_play (w : World) : World :=
  if shuffle w then
    let '(ps, k) := random_shuffle (rng w) (players w) in
    with_rng k (with_players ps w)
  else w.

Definition play (fuel : nat) (w : World)
  : option (result (option Z) * World) :=
  let w1 := enter_play w in
  play_loop fuel (players w1) 0 w1.

(** *** run *)

Definition notify_start (w : World) : World :=
  foldl (λ w' p,
           emit (EvStart p)
             (with_heap (store p (set_pstate (player_start (heap w' p))
                                             (heap w' p)) (heap w')) w'))
        w (players w).

Definition notify_finish (winner : option Z) (w : World) : World :=
  foldl (λ w' p,
           emit (EvFinish p winner)
             (with_heap (store p (set_pstate (player_finish (heap w' p) winner)
                                             (heap w' p)) (heap w')) w'))
        w (players w).

(** [self.board.fill(rules.EMPTY)] *)
Definition fill (v : Z) (b : Board) : Board := map (map (λ _, v)) b.

(** The first two steps of [run]: reset, then the start notifications. *)
Definition enter_run (w : World) : World :=
  notify_start (with_board (fill EMPTY (board w)) w).

Definition run (fuel : nat) (w : World)
  : option (result (option Z) * World) :=
  match play fuel (enter_run w) with
  | None => None
  | Some (Ok winner, w3) => Some (Ok winner, notify_finish winner w3)
  | Some (Raise e, w3) => Some (Raise e, w3)
  end.

(** *** Executions *)

(** The state a pass of the loop leaves behind, however it ends. *)
Definition final_of (x : (result (option Z) * World) + World) : World :=
  match x with
  | inl (_, w') => w'
  | inr w' => w'
  end.

(** [passes ps k w k' w']: the loop over the cycle of [ps], at its k-th
    pass in state [w], reaches its k'-th pass in state [w']. *)
Inductive passes (ps : list ref) : nat → World → nat → World → Prop :=
| passes_here k w : passes ps k w k w
| passes_step k w p w1 k' w' :
    cycle_nth ps k = Some p → turn p w = inr w1 →
    passes ps (S k) w1 k' w' → passes ps k w k' w'.

(** [after_runs w w']: [w'] is [w] after some completed calls of [run]. *)
Inductive after_runs : World → World → Prop :=
| after_none w : after_runs w w
| after_run w fuel r w1 w' :
    run fuel w = Some (r, w1) → after_runs w1 w' → after_runs w w'.

(** What [set_players] establishes: two players, each with a side. *)
Definition configured (w : World) : Prop :=
  length (players w) = length sides
  ∧ Forall (λ p, side (heap w p) ∈ sides) (players w).

#[global] Instance configured_dec w : Decision (configured w).
Proof. unfold configured. apply _. Defined.

End Runner.

Arguments PlayerObj PState : clear implicits.
Arguments World PState : clear implicits.

(** The instance the constructor yields for the two players [a] and [b]. *)
Definition constructed {PState : Type} (h : ref → PlayerObj PState)
    (a b : ref) (n : nat) (shuf lg : bool) (k : nat) : World PState :=
  mkWorld (assign_sides [a; b] h) (replicate n (replicate n 0)) [a; b]
          lg shuf k [].

(** The state a call leaves behind, [w] when the call gave none. *)
Definition state_after {PState : Type}
    (x : option (result (option Z) * World PState)) (w : World PState)
  : World PState :=
  match x with
  | Some (_, w') => w'
  | None => w
  end.

(** *** Reading the log of events *)

Definition move_of (e : event) : option (ref * Move) :=
  match e with EvMove p _ m => Some (p, m) | _ => None end.
Definition snapshot_of (e : event) : option Board :=
  match e with EvMove _ b _ => Some b | _ => None end.
Definition start_of (e : event) : option ref :=
  match e with EvStart p => Some p | _ => None end.
Definition finish_of (e : event) : option (ref * option Z) :=
  match e with EvFinish p r => Some (p, r) | _ => None end.

Definition is_log (e : event) : Prop :=
  match e with EvLog _ _ => True | _ => False end.

Definition moves (t : list event) : list (ref * Move) := omap move_of t.
Definition snapshots (t : list event) : list Board := omap snapshot_of t.
Definition starts (t : list event) : list ref := omap start_of t.
Definition finishes (t : list event) : list (ref * option Z) :=
  omap finish_of t.

End tictactoe.

(** ** Scripted players

    A player that replays a fixed list of moves, one per request. *)

Module scripted.
Import rules tictactoe.

Definition start (o : PlayerObj (list Move)) : list Move := pstate o.
Definition move (o : PlayerObj (list Move)) (_ : Board)
  : Move * list Move :=
  match pstate o with
  | [] => ((0, 0), [])
  | m :: rest => (m, rest)
  end.
Definition finish (o : PlayerObj (list Move)) (_ : option Z) : list Move :=
  pstate o.

Definition player (script : list Move) : PlayerObj (list Move) :=
  mkPlayer 0 "Scripted" script.

(** Player A is object 0, player B is object 1. *)
Definition objects (a b : list Move) : ref → PlayerObj (list Move) :=
  λ p, if decide (p = 0%nat) then player a else player b.

Abbreviation run := (tictactoe.run start move finish (λ _, 0%nat)).
Abbreviation play := (tictactoe.play move (λ _, 0%nat)).
Abbreviation turn := (tictactoe.turn move).
Abbreviation enter_run := (tictactoe.enter_run start).
Abbreviation enter_play := (tictactoe.enter_play (PState := list Move) (λ _, 0%nat)).

(** The 3 x 3 match of the end-to-end scenario: A, then B, no shuffling. *)
Definition end_to_end : World (list Move) :=
  constructed (objects [(0, 0); (1, 1); (2, 2)] [(0, 1); (1, 0)])
              0%nat 1%nat 3 false false 0.

(** A 3 x 3 match with a logger in which B answers with the cell A took. *)
Definition clash : World (list Move) :=
  constructed (objects [(0, 0)] [(0, 0)]) 0%nat 1%nat 3 false true 0.

Definition clash_after_first : World (list Move) :=
  final_of (turn 0%nat (enter_play (enter_run clash))).

(** The end-to-end scenario as the specification words it: A holds +1, B
    holds -1, [run] returns +1 and both are told so. *)
Definition end_to_end_as_stated : Prop :=
  side (heap end_to_end 0%nat) = NOUGHT
  ∧ side (heap end_to_end 1%nat) = CROSS
  ∧ ∃ fuel w', run fuel end_to_end = Some (Ok (Some NOUGHT), w')
      ∧ finishes (trace w') = [(0%nat, Some NOUGHT); (1%nat, Some NOUGHT)].

End scripted.

(** ** Sample boards *)

Module samples.

(** NOUGHT holds the main diagonal. *)
Definition diagonal_o : list (list Z) := [[1; 0; -1]; [0; 1; -1]; [0; 0; 1]].

End samples.

(** ** Greedy players

    A player without state that takes the first empty cell of the copy it
    is given. *)

Module greedy.
Import rules tictactoe.

Definition start (o : PlayerObj unit) : unit := tt.
Definition move (o : PlayerObj unit) (b : Board) : Move * unit :=
  match empty_cells b with
  | [] => ((0, 0), tt)
  | m :: _ => (m, tt)
  end.
Definition finish (o : PlayerObj unit) (_ : option Z) : unit := tt.

Definition objects : ref → PlayerObj unit := λ _, mkPlayer 0 "Greedy" tt.

Abbreviation run := (tictactoe.run start move finish).
Abbreviation play := (tictactoe.play move).

(** Two greedy players on an n x n board. *)
Definition game (n : nat) (shuf : bool) : World unit :=
  constructed objects 0%nat 1%nat n shuf false 0.

(** The same match after one and after two runs in which every draw of
    the shuffle is 0. *)
Definition after_one : World unit :=
  state_after (run (λ _, 0%nat) 9 (game 3 true)) (game 3 true).
Definition after_two : World unit :=
  state_after (run (λ _, 0%nat) 9 after_one) after_one.

(** The start notifications of the second of two runs with shuffling, as
    a function of the random draws. *)
Definition second_run_starts (entropy : nat → nat) : option (list ref) :=
  match run entropy 9 (game 3 true) with
  | Some (_, w1) =>
      match run entropy 9 w1 with
      | Some (_, w2) => Some (starts (drop (length (trace w1)) (trace w2)))
      | None => None
      end
  | None => None
  end.

(** The claim that the shuffle has no effect on the order of the start
    notifications: whatever is drawn, the second run notifies in the order
    given to [set_players]. *)
Definition starts_unaffected_by_shuffle : Prop :=
  ∀ entropy, second_run_starts entropy = Some [0%nat; 1%nat].

End greedy.

(** ** Vocabulary of the specification *)

Module board_spec.
Import rules.

(** The cell at row [i], column [j], when the grid has one. *)
Definition cell (b : Board) (ij : nat * nat) : option Z :=
  b !! ij.1 ≫= λ row, row !! ij.2.

(** An n x n grid. *)
Definition square (n : nat) (b : Board) : Prop :=
  length b = n ∧ Forall (λ row, length row = n) b.

(** Every cell holds [EMPTY] or one of the two sides. *)
Definition cell_ok (v : Z) : Prop := v = EMPTY ∨ v = NOUGHT ∨ v = CROSS.
Definition cells_ok (b : Board) : Prop := Forall (Forall cell_ok) b.

Definition board_inv (n : nat) (b : Board) : Prop := square n b ∧ cells_ok b.

#[global] Instance square_dec n b : Decision (square n b).
Proof. unfold square. apply _. Defined.
#[global] Instance cell_ok_dec v : Decision (cell_ok v).
Proof. unfold cell_ok. apply _. Defined.
#[global] Instance cells_ok_dec b : Decision (cells_ok b).
Proof. unfold cells_ok. apply _. Defined.

Definition is_side (s : Z) : Prop := s = NOUGHT ∨ s = CROSS.

(** A coordinate pair as a cell position, when it is one. *)
Definition position (m : Move) : option (nat * nat) :=
  if decide (0 ≤ m.1 ∧ 0 ≤ m.2) then Some (Z.to_nat m.1, Z.to_nat m.2)
  else None.

Definition in_bounds (n : nat) (m : Move) : Prop :=
  0 ≤ m.1 < Z.of_nat n ∧ 0 ≤ m.2 < Z.of_nat n.

#[global] Instance in_bounds_dec n m : Decision (in_bounds n m).
Proof. unfold in_bounds. apply _. Defined.

(** The win lines of an n x n grid and their cells, k-th cell first. *)
Inductive line : Type := Row (i : nat) | Col (j : nat) | Diag | Anti.

Definition line_cell (n : nat) (ln : line) (k : nat) : nat * nat :=
  match ln with
  | Row i => (i, k)
  | Col j => (k, j)
  | Diag => (k, k)
  | Anti => (k, n - 1 - k)%nat
  end.

Definition line_cells (n : nat) (ln : line) : list (nat * nat) :=
  line_cell n ln <$> seq 0 n.

Definition line_values (b : Board) (n : nat) (ln : line) : list Z :=
  omap (λ k, cell b (line_cell n ln k)) (seq 0 n).

(** The line goes through the move. *)
Definition through (n : nat) (ln : line) (m : Move) : Prop :=
  ∃ ij, position m = Some ij ∧ ij ∈ line_cells n ln.

(** "Complete": the signed sum of the n cells has absolute value n. *)
Definition complete (b : Board) (n : nat) (ln : line) : Prop :=
  Z.abs (np_sum (line_values b n ln)) = Z.of_nat n.

(** All n cells hold the same side. *)
Definition monochrome (b : Board) (n : nat) (ln : line) : Prop :=
  ∃ s, is_side s ∧ ∀ ij, ij ∈ line_cells n ln → cell b ij = Some s.

(** [l] holds, cell by cell, what the grid holds along the line. *)
Definition reads (b : Board) (n : nat) (ln : line) (l : list Z) : Prop :=
  length l = n ∧ ∀ k, (k < n)%nat → cell b (line_cell n ln k) = l !! k.

(** *** Reading a rendered board back

    The repository renders boards and has no reader for them; the reader
    below is the one the round-trip property speaks of. *)

Definition bar : Ascii.ascii := Ascii.ascii_of_nat 124.
Definition lf : Ascii.ascii := Ascii.ascii_of_nat 10.

(** [s.split(sep)] for a one-character separator. *)
Fixpoint split (sep : Ascii.ascii) (s : string) : list string :=
  match s with
  | EmptyString => [EmptyString]
  | String c rest =>
      if decide (c = sep) then EmptyString :: split sep rest
      else match split sep rest with
           | [] => [String c EmptyString]
           | p :: ps => String c p :: ps
           end
  end.

(** Modelled from the spec: the inverse of the token mapping, "EMPTY to and
    from space, side to and from its token"; any other text is no cell. *)
Definition untoken (t : string) : option Z :=
  if decide (t = " ") then Some EMPTY
  else if decide (t = "o") then Some NOUGHT
  else if decide (t = "x") then Some CROSS
  else None.

(** Modelled from the spec: "re-parsing tokens back to values", for the
    layout of [board_str]: lines are rows, [|] separates the cells of a row;
    the empty text is the board without rows. *)
Definition parse_row (s : string) : option (list Z) :=
  mapM untoken (split bar s).

Definition parse_board (s : string) : option Board :=
  if decide (s = EmptyString) then Some []
  else mapM parse_row (split lf s).

Fixpoint has_char (c : Ascii.ascii) (s : string) : bool :=
  match s with
  | EmptyString => false
  | String d rest => bool_decide (d = c) || has_char c rest
  end.

(** *** Further vocabulary *)

(** Row-major order on coordinates. *)
Definition row_major_lt (a b : Move) : Prop :=
  a.1 < b.1 ∨ (a.1 = b.1 ∧ a.2 < b.2).

(** The board with every cell handed to the opponent. *)
Definition flip_sides (b : Board) : Board := map (map opponent) b.

(** The indices [numpy] accepts on an axis of length [n]. *)
Definition wraps (n : nat) (i : Z) : Prop := - Z.of_nat n ≤ i < Z.of_nat n.

#[global] Instance wraps_dec n i : Decision (wraps n i).
Proof. unfold wraps. apply _. Defined.

(** The events of the game proper: everything but the log records. *)
Definition game_event (e : tictactoe.event) : bool :=
  match e with tictactoe.EvLog _ _ => false | _ => true end.

(** The same runner without a logger, and what it would have recorded. *)
Definition silence {PState : Type} (w : tictactoe.World PState)
  : tictactoe.World PState :=
  tictactoe.mkWorld (tictactoe.heap w) (tictactoe.board w)
    (tictactoe.players w) false (tictactoe.shuffle w) (tictactoe.rng w)
    (List.filter game_event (tictactoe.trace w)).

End board_spec.

(** ** Facts about the rules *)

Module rules_facts.
Import rules board_spec.

(** *** Emptiness scan *)

Lemma elem_of_nonzero_row (i j : Z) (row : list Z) (m : Move) :
  m ∈ nonzero_row i j row ↔
  ∃ k : nat, m = (i, j + Z.of_nat k) ∧ row !! k = Some EMPTY.
Proof.
  revert j. induction row as [|v rest IH]; intros j; simpl.
  - split; [intros H; inversion H | intros (k & _ & H); done].
  - rewrite elem_of_app, IH. split.
    + intros [H | (k & -> & Hk)].
      * case_decide; [|inversion H]. apply list_elem_of_singleton in H.
        exists O. split; [rewrite H; f_equal; lia | by subst].
      * exists (S k). split; [f_equal; lia | done].
    + intros ([|k] & -> & Hk); simpl in Hk.
      * left. inversion Hk; subst. rewrite decide_True by done.
        apply list_elem_of_singleton. f_equal. lia.
      * right. exists k. split; [f_equal; lia | done].
Qed.

Lemma elem_of_nonzero_rows (i : Z) (b : Board) (m : Move) :
  m ∈ nonzero_rows i b ↔
  ∃ (k j : nat) (row : list Z),
    m = (i + Z.of_nat k, Z.of_nat j) ∧ b !! k = Some row ∧ row !! j = Some EMPTY.
Proof.
  revert i. induction b as [|r rest IH]; intros i; simpl.
  - split; [intros H; inversion H | intros (k & j & row & _ & H & _); done].
  - rewrite elem_of_app, IH, elem_of_nonzero_row. split.
    + intros [(j & -> & Hj) | (k & j & row & -> & Hk & Hj)].
      * exists O, j, r. split; [f_equal; lia | done].
      * exists (S k), j, row. split; [f_equal; lia | done].
    + intros ([|k] & j & row & -> & Hk & Hj); simpl in Hk.
      * left. inversion Hk; subst. exists j. split; [f_equal; lia | done].
      * right. exists k, j, row. split; [f_equal; lia | done].
Qed.

Lemma elem_of_empty_cells (b : Board) (m : Move) :
  m ∈ empty_cells b ↔ ∃ ij, position m = Some ij ∧ cell b ij = Some EMPTY.
Proof.
  unfold empty_cells. rewrite elem_of_nonzero_rows. split.
  - intros (k & j & row & -> & Hk & Hj). exists (k, j). split.
    + unfold position; simpl. rewrite decide_True by lia.
      f_equal. f_equal; lia.
    + unfold cell; simpl. by rewrite Hk.
  - intros ([k j] & Hp & Hc). unfold position in Hp.
    case_decide as Hm; [|done]. inversion Hp; subst; clear Hp.
    unfold cell in Hc; simpl in Hc.
    destruct (b !! Z.to_nat m.1) as [row|] eqn:Hrow; [|done]. simpl in Hc.
    exists (Z.to_nat m.1), (Z.to_nat m.2), row. split; [|done].
    destruct m as [x y]; simpl in *. f_equal; lia.
Qed.

Lemma cell_in_square (n : nat) (b : Board) (ij : nat * nat) :
  square n b → (is_Some (cell b ij) ↔ (ij.1 < n ∧ ij.2 < n)%nat).
Proof.
  intros [Hlen Hrows]. unfold cell. split.
  - intros [v Hv]. destruct (b !! ij.1) as [row|] eqn:Hrow; [|done].
    simpl in Hv. apply lookup_lt_Some in Hv.
    pose proof (lookup_lt_Some _ _ _ Hrow).
    rewrite Forall_lookup in Hrows. specialize (Hrows _ _ Hrow). lia.
  - intros [Hi Hj]. destruct (lookup_lt_is_Some_2 b ij.1) as [row Hrow]; [lia|].
    rewrite Hrow; simpl. apply lookup_lt_is_Some_2.
    rewrite Forall_lookup in Hrows. specialize (Hrows _ _ Hrow). lia.
Qed.

(** C3. [valid_move] is the membership test of [empty_cells] on every board
    and every coordinate pair; the members of [empty_cells] are the
    positions of the cells holding [EMPTY]; a pair outside the bounds of an
    n x n board is no member and is rejected, and the test is a total
    function (it yields a boolean, never an exception). *)
Theorem valid_move_iff_empty_cell (b : Board) (m : Move) :
  (valid_move b m = true ↔ m ∈ empty_cells b)
  ∧ (valid_move b m = false ↔ m ∉ empty_cells b)
  ∧ (m ∈ empty_cells b ↔
       (∃ ij, position m = Some ij ∧ cell b ij = Some EMPTY))
  ∧ (∀ n, square n b → (¬ in_bounds n m) →
       (m ∉ empty_cells b) ∧ valid_move b m = false).
Proof.
  unfold valid_move. split; [apply bool_decide_eq_true|].
  split; [apply bool_decide_eq_false|].
  split; [apply elem_of_empty_cells|].
  intros n Hsq Hout.
  assert (m ∉ empty_cells b) as Hnot.
  { rewrite elem_of_empty_cells. intros (ij & Hp & Hc).
    assert (is_Some (cell b ij)) as Hs by eauto.
    apply (cell_in_square n b ij Hsq) in Hs.
    unfold position in Hp. case_decide; [|done]. inversion Hp; subst.
    simpl in Hs. apply Hout. unfold in_bounds. lia. }
  split; [done | by apply bool_decide_eq_false].
Qed.

(** *** Lines and their sums *)

Lemma sum_extremes (l : list Z) :
  Forall cell_ok l →
  - Z.of_nat (length l) ≤ np_sum l ≤ Z.of_nat (length l)
  ∧ (np_sum l = Z.of_nat (length l) ↔ Forall (eq NOUGHT) l)
  ∧ (np_sum l = - Z.of_nat (length l) ↔ Forall (eq CROSS) l).
Proof.
  unfold np_sum, NOUGHT, CROSS.
  induction 1 as [|v l Hv Hl (Hb & Hmax & Hmin)]; simpl.
  - repeat split; auto; lia.
  - rewrite !Forall_cons, <- Hmax, <- Hmin.
    unfold cell_ok, EMPTY, NOUGHT, CROSS in Hv. lia.
Qed.

Lemma abs_sum_full (l : list Z) :
  Forall cell_ok l →
  Z.abs (np_sum l) = Z.of_nat (length l) ↔ ∃ s, is_side s ∧ Forall (eq s) l.
Proof.
  intros Hl. destruct (sum_extremes l Hl) as (Hb & Hmax & Hmin). split.
  - intros Habs.
    destruct (decide (np_sum l = Z.of_nat (length l))) as [E|E].
    + exists NOUGHT. split; [by left | by apply Hmax].
    + exists CROSS. split; [by right | apply Hmin; lia].
  - intros (s & [-> | ->] & Hs).
    + apply Hmax in Hs. lia.
    + apply Hmin in Hs. lia.
Qed.

Lemma omap_seq_reads (g : nat → option Z) (l : list Z) (off : nat) :
  (∀ k, (k < length l)%nat → g (off + k)%nat = l !! k) →
  omap g (seq off (length l)) = l.
Proof.
  revert off. induction l as [|a l IH]; intros off H; simpl; [done|].
  pose proof (H O ltac:(simpl; lia)) as H0.
  rewrite Nat.add_0_r in H0. rewrite H0. simpl. f_equal.
  apply IH. intros k Hk. specialize (H (S k) ltac:(simpl; lia)).
  by rewrite Nat.add_succ_r in H.
Qed.

Lemma reads_values b n ln l : reads b n ln l → line_values b n ln = l.
Proof.
  intros [<- H]. unfold line_values. by apply omap_seq_reads.
Qed.

Lemma reads_monochrome b n ln l s :
  reads b n ln l →
  Forall (eq s) l ↔ ∀ ij, ij ∈ line_cells n ln → cell b ij = Some s.
Proof.
  intros [Hlen H]. unfold line_cells. rewrite Forall_lookup. split.
  - intros Hl ij (k & -> & Hk)%list_elem_of_fmap.
    apply elem_of_seq in Hk. rewrite H by lia.
    destruct (lookup_lt_is_Some_2 l k) as [v Hv]; [lia|].
    rewrite Hv. f_equal. symmetry. by eapply Hl.
  - intros Hc k v Hv. pose proof (lookup_lt_Some _ _ _ Hv) as Hlt.
    specialize (Hc (line_cell n ln k)).
    rewrite H, Hv in Hc by lia.
    assert (Some v = Some s) as [=]; [|done].
    apply Hc, list_elem_of_fmap. exists k. split; [done|].
    apply elem_of_seq. lia.
Qed.

Lemma reads_cells_ok b n ln l : cells_ok b → reads b n ln l → Forall cell_ok l.
Proof.
  intros Hb [Hlen H]. apply Forall_lookup. intros k v Hv.
  pose proof (lookup_lt_Some _ _ _ Hv) as Hlt.
  rewrite <- H in Hv by lia. unfold cell in Hv.
  destruct (b !! (line_cell n ln k).1) as [row|] eqn:Hrow; [|done].
  simpl in Hv. unfold cells_ok in Hb. rewrite Forall_lookup in Hb.
  specialize (Hb _ _ Hrow). rewrite Forall_lookup in Hb. by eapply Hb.
Qed.

(** On a grid with the allowed cell values, a line is complete exactly when
    it is monochrome. *)
Lemma complete_iff_monochrome b n ln l :
  cells_ok b → reads b n ln l → complete b n ln ↔ monochrome b n ln.
Proof.
  intros Hb Hr. unfold complete, monochrome.
  rewrite (reads_values _ _ _ _ Hr).
  destruct Hr as [Hlen H] eqn:E. rewrite <- Hlen at 1. clear E.
  rewrite abs_sum_full by eauto using reads_cells_ok.
  split; intros (s & Hs & Hl); exists s; (split; [done|]);
    by eapply reads_monochrome.
Qed.

(** *** The four extractions of [winning_move] read the four lines *)

Lemma np_index_in (n : nat) (i : nat) :
  (i < n)%nat → np_index n (Z.of_nat i) = Ok i.
Proof.
  intros Hi. unfold np_index. rewrite decide_True by lia.
  by rewrite Nat2Z.id.
Qed.

Lemma reads_row b n i :
  square n b → (i < n)%nat →
  ∃ row, np_row b (Z.of_nat i) = Ok row ∧ reads b n (Row i) row.
Proof.
  intros [Hlen Hrows] Hi.
  destruct (lookup_lt_is_Some_2 b i) as [row Hrow]; [lia|].
  exists row. unfold np_row, shape0. rewrite np_index_in by lia. simpl.
  rewrite Hrow. split; [done|]. split.
  - rewrite Forall_lookup in Hrows. by eapply Hrows.
  - intros k _. unfold cell; simpl. by rewrite Hrow.
Qed.

Lemma lookup_column (b : Board) (j k : nat) :
  Forall (λ row, (j < length row)%nat) b →
  omap (λ row : list Z, row !! j) b !! k = cell b (k, j).
Proof.
  unfold cell; simpl. intros Hb. revert k.
  induction Hb as [|row rest Hrow Hrest IH]; intros k; simpl; [done|].
  destruct (lookup_lt_is_Some_2 row j Hrow) as [v Hv]. rewrite Hv.
  destruct k as [|k]; simpl; [done | apply IH].
Qed.

Lemma length_column (b : Board) (j : nat) :
  Forall (λ row, (j < length row)%nat) b →
  length (omap (λ row : list Z, row !! j) b) = length b.
Proof.
  induction 1 as [|row rest Hrow Hrest IH]; simpl; [done|].
  destruct (lookup_lt_is_Some_2 row j Hrow) as [v Hv]. rewrite Hv.
  simpl. f_equal. exact IH.
Qed.

Lemma shape1_square n b : square n b → (0 < n)%nat → shape1 b = n.
Proof.
  intros [Hlen Hrows] Hn. destruct b as [|row rest]; simpl in *; [lia|].
  by inversion Hrows.
Qed.

Lemma reads_col b n j :
  square n b → (j < n)%nat →
  ∃ col, np_col b (Z.of_nat j) = Ok col ∧ reads b n (Col j) col.
Proof.
  intros Hsq Hj. pose proof Hsq as [Hlen Hrows].
  assert (Forall (λ row : list Z, (j < length row)%nat) b) as Hb.
  { eapply Forall_impl; [exact Hrows|]. simpl. lia. }
  eexists. unfold np_col. rewrite (shape1_square n) by (done || lia).
  rewrite np_index_in by lia. simpl. split; [done|]. split.
  - by rewrite length_column.
  - intros k _. simpl. by rewrite lookup_column.
Qed.

Lemma diagonal_from_reads (b : Board) (k0 : nat) (n : nat) :
  Forall (λ row, length row = n) b → (k0 + length b ≤ n)%nat →
  length (diagonal_from k0 b) = length b
  ∧ ∀ k, (k < length b)%nat →
      cell b (k, (k0 + k)%nat) = diagonal_from k0 b !! k.
Proof.
  intros Hb. revert k0.
  induction Hb as [|row rest Hrow Hrest IH]; intros k0 Hk0; simpl in *.
  - split; [done | lia].
  - destruct (lookup_lt_is_Some_2 row k0) as [v Hv]; [lia|]. rewrite Hv.
    destruct (IH (S k0)) as [IHlen IHk]; [lia|]. simpl. split; [by f_equal|].
    intros [|k] Hk; unfold cell; simpl.
    + by rewrite Nat.add_0_r.
    + rewrite <- IHk by lia. unfold cell; simpl.
      by rewrite Nat.add_succ_r.
Qed.

Lemma reads_diag b n : square n b → reads b n Diag (np_diagonal b).
Proof.
  intros [Hlen Hrows]. unfold np_diagonal.
  destruct (diagonal_from_reads b 0 n Hrows) as [Hl Hk]; [lia|].
  split; [lia|]. intros k Hlt. simpl. rewrite <- Hk by lia. done.
Qed.

Lemma square_fliplr n b : square n b → square n (np_fliplr b).
Proof.
  intros [Hlen Hrows]. unfold np_fliplr. split.
  - by rewrite length_map.
  - apply Forall_map. eapply Forall_impl; [exact Hrows|].
    simpl. intros row. by rewrite length_reverse.
Qed.

Lemma cell_fliplr n b i j :
  square n b → (j < n)%nat →
  cell (np_fliplr b) (i, j) = cell b (i, (n - 1 - j)%nat).
Proof.
  intros [Hlen Hrows] Hj. unfold cell, np_fliplr; simpl.
  rewrite list_lookup_fmap.
  destruct (b !! i) as [row|] eqn:Hrow; simpl; [|done].
  rewrite Forall_lookup in Hrows. specialize (Hrows _ _ Hrow).
  rewrite reverse_lookup by lia. f_equal. lia.
Qed.

Lemma reads_anti b n :
  square n b → reads b n Anti (np_diagonal (np_fliplr b)).
Proof.
  intros Hsq. destruct (reads_diag _ _ (square_fliplr _ _ Hsq)) as [Hl Hk].
  split; [done|]. intros k Hlt. rewrite <- Hk by done. simpl.
  by rewrite (cell_fliplr n).
Qed.

(** Which lines go through an in-bounds move. *)
Lemma through_iff n ln m :
  in_bounds n m →
  through n ln m ↔
  match ln with
  | Row i => Z.of_nat i = m.1
  | Col j => Z.of_nat j = m.2
  | Diag => m.1 = m.2
  | Anti => m.1 = (Z.of_nat n - 1) - m.2
  end.
Proof.
  destruct m as [x y]. intros [Hx Hy]; simpl in *.
  unfold through, position, line_cells; simpl.
  rewrite decide_True by lia. split.
  - intros (ij & [= <-] & (k & Hk & Hin)%list_elem_of_fmap).
    apply elem_of_seq in Hin.
    destruct ln; simpl in Hk; inversion Hk; subst; lia.
  - intros H. eexists. split; [done|]. apply list_elem_of_fmap.
    destruct ln; simpl.
    + exists (Z.to_nat y). split; [f_equal; lia | apply elem_of_seq; lia].
    + exists (Z.to_nat x). split; [f_equal; lia | apply elem_of_seq; lia].
    + exists (Z.to_nat x). split; [f_equal; lia | apply elem_of_seq; lia].
    + exists (Z.to_nat x). split; [f_equal; lia | apply elem_of_seq; lia].
Qed.

Lemma winning_move_lines (b : Board) (x y : Z) (row col : list Z) :
  np_row b x = Ok row → np_col b y = Ok col →
  let n := Z.of_nat (shape0 b) in
  winning_move b (x, y) =
  Ok (bool_decide
        (Z.abs (np_sum row) = n ∨ Z.abs (np_sum col) = n
         ∨ (x = y ∧ Z.abs (np_sum (np_diagonal b)) = n)
         ∨ (x = (n - 1) - y
            ∧ Z.abs (np_sum (np_diagonal (np_fliplr b))) = n))).
Proof.
  intros Hrow Hcol n. unfold winning_move. fold n. rewrite Hrow. simpl.
  destruct (decide (Z.abs (np_sum row) = n)) as [|N1];
    [by rewrite bool_decide_eq_true_2 by auto|].
  rewrite Hcol. simpl.
  destruct (decide (Z.abs (np_sum col) = n)) as [|N2];
    [by rewrite bool_decide_eq_true_2 by auto|].
  destruct (decide (x = y ∧ _)) as [|N3];
    [by rewrite bool_decide_eq_true_2 by auto|].
  destruct (decide (x = n - 1 - y ∧ _)) as [|N4];
    [by rewrite bool_decide_eq_true_2 by auto|].
  by rewrite bool_decide_eq_false_2 by tauto.
Qed.

(** C1. On an n x n board with cells in {0, +1, -1} and an in-bounds move,
    [winning_move] returns a boolean (no exception), which is true exactly
    when the move's row, the move's column, the main diagonal (when
    x = y) or the anti-diagonal (when x = (n-1) - y) has a signed sum of
    absolute value n; this is the same as some line through the move
    holding n times the same side; with no complete line through the move
    the answer is false. *)
Theorem winning_move_complete_line (n : nat) (b : Board) (m : Move) :
  square n b → cells_ok b → in_bounds n m →
  ∃ r, winning_move b m = Ok r
  ∧ (r = true ↔
       complete b n (Row (Z.to_nat m.1)) ∨ complete b n (Col (Z.to_nat m.2))
       ∨ (m.1 = m.2 ∧ complete b n Diag)
       ∨ (m.1 = (Z.of_nat n - 1) - m.2 ∧ complete b n Anti))
  ∧ (r = true ↔ (∃ ln, through n ln m ∧ monochrome b n ln))
  ∧ ((¬ ∃ ln, through n ln m ∧ complete b n ln) → r = false).
Proof.
  intros Hsq Hok Hin. pose proof Hin as [Hx Hy]. destruct m as [x y].
  simpl in *.
  destruct (reads_row b n (Z.to_nat x) Hsq) as (row & Hrow & Rrow); [lia|].
  destruct (reads_col b n (Z.to_nat y) Hsq) as (col & Hcol & Rcol); [lia|].
  pose proof (reads_diag b n Hsq) as Rdiag.
  pose proof (reads_anti b n Hsq) as Ranti.
  rewrite Z2Nat.id in Hrow, Hcol by lia.
  eexists. split; [by apply winning_move_lines|].
  assert (shape0 b = n) as -> by apply Hsq.
  rewrite bool_decide_eq_true. unfold complete at 1 2 3 4.
  rewrite (reads_values _ _ _ _ Rrow), (reads_values _ _ _ _ Rcol),
    (reads_values _ _ _ _ Rdiag), (reads_values _ _ _ _ Ranti).
  split; [done|].
  assert (∀ ln, through n ln (x, y) →
            ∃ l, reads b n ln l ∧
              (ln = Row (Z.to_nat x) ∨ ln = Col (Z.to_nat y)
               ∨ (x = y ∧ ln = Diag)
               ∨ (x = (Z.of_nat n - 1) - y ∧ ln = Anti))) as Hlines.
  { intros ln Hth. apply through_iff in Hth; [|done]. simpl in Hth.
    destruct ln as [i|j| |].
    - exists row. replace i with (Z.to_nat x) by lia. split; [done | auto].
    - exists col. replace j with (Z.to_nat y) by lia. split; [done | auto].
    - exists (np_diagonal b). split; [done | auto].
    - exists (np_diagonal (np_fliplr b)). split; [done | auto 6]. }
  assert (∀ ln l, reads b n ln l →
            Z.abs (np_sum l) = Z.of_nat n ↔ monochrome b n ln) as Hmono.
  { intros ln l Hr. rewrite <- (complete_iff_monochrome b n ln l) by done.
    unfold complete. by rewrite (reads_values _ _ _ _ Hr). }
  assert (Z.abs (np_sum row) = Z.of_nat n ∨ Z.abs (np_sum col) = Z.of_nat n
          ∨ (x = y ∧ Z.abs (np_sum (np_diagonal b)) = Z.of_nat n)
          ∨ (x = (Z.of_nat n - 1) - y
             ∧ Z.abs (np_sum (np_diagonal (np_fliplr b))) = Z.of_nat n)
          ↔ (∃ ln, through n ln (x, y) ∧ monochrome b n ln)) as Hiff.
  { split.
    - intros [H | [H | [[E H] | [E H]]]].
      + exists (Row (Z.to_nat x)). split;
          [apply through_iff; [done | simpl; lia] | by eapply Hmono].
      + exists (Col (Z.to_nat y)). split;
          [apply through_iff; [done | simpl; lia] | by eapply Hmono].
      + exists Diag. split;
          [apply through_iff; [done | simpl; lia] | by eapply Hmono].
      + exists Anti. split;
          [apply through_iff; [done | simpl; lia] | by eapply Hmono].
    - intros (ln & Hth & Hm).
      destruct (Hlines ln Hth) as (l & Hr & [-> | [-> | [[E ->] | [E ->]]]]).
      + left. by apply (Hmono _ _ Rrow).
      + right; left. by apply (Hmono _ _ Rcol).
      + right; right; left. split; [done | by apply (Hmono _ _ Rdiag)].
      + right; right; right. split; [done | by apply (Hmono _ _ Ranti)]. }
  split; [done|].
  intros Hnone. apply bool_decide_eq_false. rewrite Hiff.
  intros (ln & Hth & Hm). apply Hnone. exists ln. split; [done|].
  destruct (Hlines ln Hth) as (l & Hr & _).
  by eapply complete_iff_monochrome.
Qed.

(** *** Rendering and reading back *)

Lemma split_no_sep (c : Ascii.ascii) (p : string) :
  has_char c p = false → split c p = [p].
Proof.
  induction p as [|d p IH]; simpl; [done|].
  intros [Hd Hp]%orb_false_elim. apply bool_decide_eq_false in Hd.
  rewrite decide_False by done. by rewrite IH.
Qed.

Lemma split_app (c : Ascii.ascii) (p rest : string) :
  has_char c p = false →
  split c (p +:+ String c rest) = p :: split c rest.
Proof.
  induction p as [|d p IH]; simpl.
  - intros _. by rewrite decide_True.
  - intros [Hd Hp]%orb_false_elim. apply bool_decide_eq_false in Hd.
    rewrite decide_False by done. by rewrite IH.
Qed.

Lemma split_join (c : Ascii.ascii) (parts : list string) :
  parts ≠ [] → Forall (λ p, has_char c p = false) parts →
  split c (join (String c EmptyString) parts) = parts.
Proof.
  intros Hne Hall. induction Hall as [|p rest Hp Hrest IH]; [done|].
  destruct rest as [|q rest].
  - simpl. by apply split_no_sep.
  - change (join (String c EmptyString) (p :: q :: rest))
      with (p +:+ String c (join (String c EmptyString) (q :: rest))).
    rewrite split_app by done. f_equal. by apply IH.
Qed.

Lemma has_char_app (c : Ascii.ascii) (s t : string) :
  has_char c (s +:+ t) = has_char c s || has_char c t.
Proof.
  induction s as [|d s IH]; simpl; [done|]. by rewrite IH, orb_assoc.
Qed.

Lemma has_char_join (c d : Ascii.ascii) (parts : list string) :
  d ≠ c → Forall (λ p, has_char c p = false) parts →
  has_char c (join (String d EmptyString) parts) = false.
Proof.
  intros Hd Hall. induction Hall as [|p rest Hp Hrest IH]; [done|].
  destruct rest as [|q rest]; [done|].
  change (join (String d EmptyString) (p :: q :: rest))
    with (p +:+ String d (join (String d EmptyString) (q :: rest))).
  rewrite has_char_app, Hp. cbn [has_char orb]. rewrite IH.
  by rewrite bool_decide_eq_false_2.
Qed.

Lemma token_ok (v : Z) :
  cell_ok v →
  untoken (token v) = Some v
  ∧ has_char bar (token v) = false ∧ has_char lf (token v) = false
  ∧ token v ≠ EmptyString.
Proof. intros [-> | [-> | ->]]; by vm_compute. Qed.

Lemma untoken_token (t : string) (v : Z) :
  untoken t = Some v → cell_ok v ∧ token v = t.
Proof.
  unfold untoken, cell_ok. repeat case_decide; intros [= <-]; subst;
    (split; [auto | done]).
Qed.

Lemma parse_row_str (row : list Z) :
  row ≠ [] → Forall cell_ok row → parse_row (row_str row) = Some row.
Proof.
  intros Hne Hok. unfold parse_row, row_str.
  change "|"%string with (String bar EmptyString). rewrite split_join.
  - apply mapM_Some. apply Forall2_fmap_l, Forall_Forall2_diag.
    eapply Forall_impl; [exact Hok|]. intros v Hv. by apply token_ok.
  - by destruct row.
  - apply Forall_fmap. eapply Forall_impl; [exact Hok|].
    intros v Hv. by apply token_ok.
Qed.

Lemma row_str_no_lf (row : list Z) :
  Forall cell_ok row → has_char lf (row_str row) = false.
Proof.
  intros Hok. unfold row_str.
  change "|"%string with (String bar EmptyString). apply has_char_join.
  - by vm_compute.
  - apply Forall_fmap. eapply Forall_impl; [exact Hok|].
    intros v Hv. by apply token_ok.
Qed.

Lemma join_nonempty (sep p : string) (rest : list string) :
  p ≠ EmptyString → join sep (p :: rest) ≠ EmptyString.
Proof. destruct p; [done|]. by destruct rest. Qed.

Lemma parse_board_str (n : nat) (b : Board) :
  square n b → cells_ok b → parse_board (board_str b) = Some b.
Proof.
  intros [Hlen Hrows] Hok. unfold parse_board.
  destruct b as [|row rest]; [done|].
  assert (Forall (λ r : list Z, r ≠ []) (row :: rest)) as Hne.
  { eapply Forall_impl; [exact Hrows|]. simpl in Hlen.
    intros r Hr ->. simpl in Hr. lia. }
  unfold board_str. rewrite decide_False.
  - change newline with (String lf EmptyString). rewrite split_join.
    + apply mapM_Some. apply Forall2_fmap_l, Forall_Forall2_diag.
      unfold cells_ok in Hok. rewrite Forall_forall in *.
      intros r Hr. apply parse_row_str; auto.
    + done.
    + apply Forall_fmap. eapply Forall_impl; [exact Hok|].
      intros r Hr. by apply row_str_no_lf.
  - simpl map. apply join_nonempty. inversion Hne; subst.
    inversion Hok; subst. destruct row as [|v row]; [done|].
    unfold row_str. simpl map. apply join_nonempty.
    inversion H3; subst. by apply token_ok.
Qed.

(** C9. Rendering an n x n board with cells in {EMPTY, +1, -1} by
    [board_str] and reading the text back (rows at the line feeds, cells at
    the bars, tokens to values) gives the board again; [token] sends EMPTY
    to a space and the two sides to "o" and "x", and is a bijection between
    the three cell values and these three tokens. *)
Theorem board_str_round_trip (n : nat) (b : Board) :
  square n b → cells_ok b →
  parse_board (board_str b) = Some b
  ∧ token EMPTY = " " ∧ token NOUGHT = "o" ∧ token CROSS = "x"
  ∧ (∀ u v, cell_ok u → cell_ok v → token u = token v → u = v)
  ∧ (∀ v, cell_ok v → untoken (token v) = Some v)
  ∧ (∀ t v, untoken t = Some v → cell_ok v ∧ token v = t).
Proof.
  intros Hsq Hok. split; [by eapply parse_board_str|].
  do 3 (split; [done|]). split; [|split].
  - intros u v Hu Hv E.
    destruct (token_ok u Hu) as [Eu _], (token_ok v Hv) as [Ev _].
    rewrite E in Eu. congruence.
  - intros v Hv. by apply token_ok.
  - apply untoken_token.
Qed.

(** *** Moves on a square board *)

Lemma winning_move_total (n : nat) (b : Board) (m : Move) :
  square n b → in_bounds n m → ∃ r, winning_move b m = Ok r.
Proof.
  intros Hsq [Hx Hy]. destruct m as [x y]; simpl in *.
  destruct (reads_row b n (Z.to_nat x) Hsq) as (row & Hrow & _); [lia|].
  destruct (reads_col b n (Z.to_nat y) Hsq) as (col & Hcol & _); [lia|].
  rewrite Z2Nat.id in Hrow, Hcol by lia.
  eexists. by apply winning_move_lines.
Qed.

Lemma valid_move_cell (n : nat) (b : Board) (m : Move) :
  square n b → valid_move b m = true →
  ∃ (i j : nat) (row : list Z),
    m = (Z.of_nat i, Z.of_nat j) ∧ (i < n)%nat ∧ (j < n)%nat
    ∧ b !! i = Some row ∧ row !! j = Some EMPTY.
Proof.
  intros Hsq Hv. apply bool_decide_eq_true in Hv.
  apply elem_of_empty_cells in Hv as ([i j] & Hp & Hc).
  assert (is_Some (cell b (i, j))) as Hs by eauto.
  apply (cell_in_square n b _ Hsq) in Hs. simpl in Hs.
  unfold position in Hp. case_decide; [|done]. inversion Hp; subst.
  unfold cell in Hc. simpl in Hc.
  destruct (b !! Z.to_nat m.1) as [row|] eqn:Hrow; [|done].
  exists (Z.to_nat m.1), (Z.to_nat m.2), row.
  destruct m as [x y]; simpl in *.
  repeat split; try done; try lia. f_equal; lia.
Qed.

Lemma valid_move_in_bounds (n : nat) (b : Board) (m : Move) :
  square n b → valid_move b m = true → in_bounds n m.
Proof.
  intros Hsq Hv.
  destruct (valid_move_cell n b m Hsq Hv) as (i & j & row & -> & ? & ? & _).
  unfold in_bounds; simpl. lia.
Qed.

Lemma square_insert (n : nat) (b : Board) (i j : nat) (row : list Z) (v : Z) :
  square n b → b !! i = Some row → square n (<[i := <[j := v]> row]> b).
Proof.
  intros [Hlen Hrows] Hrow. split; [by rewrite length_insert|].
  apply Forall_insert; [done|]. rewrite length_insert.
  rewrite Forall_lookup in Hrows. by eapply Hrows.
Qed.

Lemma cells_ok_insert (b : Board) (i j : nat) (row : list Z) (v : Z) :
  cells_ok b → b !! i = Some row → cell_ok v →
  cells_ok (<[i := <[j := v]> row]> b).
Proof.
  intros Hok Hrow Hv. apply Forall_insert; [done|].
  apply Forall_insert; [|done].
  unfold cells_ok in Hok. rewrite Forall_lookup in Hok. by eapply Hok.
Qed.

Lemma nonzero_row_insert (i j : Z) (row : list Z) (k : nat) (v : Z) :
  row !! k = Some EMPTY → v ≠ EMPTY →
  S (length (nonzero_row i j (<[k := v]> row))) = length (nonzero_row i j row).
Proof.
  revert j k. induction row as [|a row IH]; intros j k Hk Hv; [done|].
  destruct k as [|k]; simpl in *.
  - inversion Hk; subst. rewrite decide_False by done.
    by rewrite decide_True by done.
  - rewrite !length_app. rewrite <- (IH (j + 1) k) by done. lia.
Qed.

Lemma nonzero_rows_insert (i : Z) (b : Board) (k j : nat) (row : list Z)
    (v : Z) :
  b !! k = Some row → row !! j = Some EMPTY → v ≠ EMPTY →
  S (length (nonzero_rows i (<[k := <[j := v]> row]> b)))
  = length (nonzero_rows i b).
Proof.
  revert i k. induction b as [|r b IH]; intros i k Hk Hj Hv; [done|].
  destruct k as [|k]; simpl in *.
  - inversion Hk; subst. rewrite !length_app.
    rewrite <- (nonzero_row_insert i 0 row j v) by done. lia.
  - rewrite !length_app. rewrite <- (IH (i + 1) k) by done. lia.
Qed.

(** A move onto an empty cell uses up exactly one empty cell. *)
Lemma empty_cells_insert (b : Board) (k j : nat) (row : list Z) (v : Z) :
  b !! k = Some row → row !! j = Some EMPTY → v ≠ EMPTY →
  S (length (empty_cells (<[k := <[j := v]> row]> b)))
  = length (empty_cells b).
Proof. apply nonzero_rows_insert. Qed.

Lemma nonzero_row_nil (i j : Z) (row : list Z) :
  nonzero_row i j row = [] ↔ Forall (λ v, v ≠ EMPTY) row.
Proof.
  revert j. induction row as [|a row IH]; intros j; simpl.
  - split; [constructor | done].
  - rewrite Forall_cons, <- (IH (j + 1)). case_decide; simpl.
    + split; [done | tauto].
    + tauto.
Qed.

Lemma nonzero_rows_nil (i : Z) (b : Board) :
  nonzero_rows i b = [] ↔ Forall (Forall (λ v, v ≠ EMPTY)) b.
Proof.
  revert i. induction b as [|r b IH]; intros i; simpl.
  - split; [constructor | done].
  - rewrite Forall_cons, <- (IH (i + 1)), <- (nonzero_row_nil i 0).
    split; [by intros [? ?]%app_eq_nil | by intros [-> ->]].
Qed.

(** [board_full] holds exactly when [empty_cells] is empty. *)
Lemma board_full_iff (b : Board) :
  board_full b = true ↔ empty_cells b = [].
Proof.
  unfold board_full, empty_cells.
  by rewrite bool_decide_eq_true, nonzero_rows_nil.
Qed.

Lemma nonzero_row_length (i j : Z) (row : list Z) :
  (length (nonzero_row i j row) ≤ length row)%nat.
Proof.
  revert j. induction row as [|a row IH]; intros j; simpl; [done|].
  rewrite length_app. specialize (IH (j + 1)). case_decide; simpl; lia.
Qed.

Lemma nonzero_rows_length (i : Z) (n : nat) (b : Board) :
  Forall (λ row, length row = n) b →
  (length (nonzero_rows i b) ≤ length b * n)%nat.
Proof.
  intros Hb. revert i. induction Hb as [|r b Hr Hb IH]; intros i; simpl;
    [done|].
  rewrite length_app. specialize (IH (i + 1)).
  pose proof (nonzero_row_length i 0 r). lia.
Qed.

Lemma empty_cells_length (n : nat) (b : Board) :
  square n b → (length (empty_cells b) ≤ n * n)%nat.
Proof.
  intros [Hlen Hrows]. pose proof (nonzero_rows_length 0 n b Hrows) as H.
  by rewrite Hlen in H.
Qed.

Lemma fill_inv (n : nat) (b : Board) :
  square n b → board_inv n (tictactoe.fill EMPTY b).
Proof.
  intros [Hlen Hrows]. unfold tictactoe.fill. repeat split.
  - by rewrite length_map.
  - apply Forall_map. eapply Forall_impl; [exact Hrows|].
    simpl. intros r Hr. by rewrite length_map.
  - apply Forall_map, Forall_true. intros r. apply Forall_map, Forall_true.
    intros v. by left.
Qed.

End rules_facts.

(** ** Facts about the match runner *)

Module runner_facts.
Import rules board_spec rules_facts tictactoe.

Section Facts.

Context {PState : Type}.
Variable player_start : PlayerObj PState → PState.
Variable player_move : PlayerObj PState → Board → Move * PState.
Variable player_finish : PlayerObj PState → option Z → PState.
Variable entropy : nat → nat.

Local Abbreviation request := (tictactoe.request player_move).
Local Abbreviation turn := (tictactoe.turn player_move).
Local Abbreviation play_loop := (tictactoe.play_loop player_move).
Local Abbreviation passes := (tictactoe.passes player_move).
Local Abbreviation enter_play := (tictactoe.enter_play entropy).
Local Abbreviation play := (tictactoe.play player_move entropy).
Local Abbreviation notify_start := (tictactoe.notify_start player_start).
Local Abbreviation notify_finish := (tictactoe.notify_finish player_finish).
Local Abbreviation enter_run := (tictactoe.enter_run player_start).
Local Abbreviation run :=
  (tictactoe.run player_start player_move player_finish entropy).
Local Abbreviation after_runs :=
  (tictactoe.after_runs player_start player_move player_finish entropy).

Implicit Types (w : World PState) (p : ref) (ps : list ref).

(** *** One request, one pass *)

Lemma side_store p (st : PState) (h : ref → PlayerObj PState) q :
  side (store p (set_pstate st (h p)) h q) = side (h q).
Proof. unfold store. by case_decide; subst. Qed.

Lemma request_spec p w mv w1 :
  request p w = (mv, w1) →
  board w1 = board w ∧ players w1 = players w ∧ logger w1 = logger w
  ∧ shuffle w1 = shuffle w ∧ rng w1 = rng w
  ∧ trace w1 = trace w ++ [EvMove p (board w) mv]
  ∧ (∀ q, side (heap w1 q) = side (heap w q))
  ∧ mv = (player_move (heap w p) (board w)).1.
Proof.
  unfold tictactoe.request.
  destruct (player_move (heap w p) (board w)) as [m st] eqn:E.
  simpl. intros [= <- <-]. simpl. repeat split; try done.
  intros q. by apply side_store.
Qed.

Lemma board_set_cell (n : nat) (b : Board) (i j : nat) (row : list Z) (v : Z) :
  square n b → (i < n)%nat → (j < n)%nat → b !! i = Some row →
  board_set b (Z.of_nat i, Z.of_nat j) v = Ok (<[i := <[j := v]> row]> b).
Proof.
  intros Hsq Hi Hj Hrow. unfold board_set.
  rewrite (shape1_square n) by (done || lia).
  assert (shape0 b = n) as -> by apply Hsq.
  rewrite !np_index_in by done. simpl. by rewrite Hrow.
Qed.

(** The three ways a pass can end after a valid move, and the one way after
    an invalid move. *)
Lemma turn_spec (n : nat) p w mv w1 :
  square n (board w) → request p w = (mv, w1) →
  (valid_move (board w) mv = false
   ∧ turn p w = inl (Raise (ValueError (invalid_msg mv)),
                     log Fatal "Invalid move" w1))
  ∨ (∃ (i j : nat) (row : list Z),
       mv = (Z.of_nat i, Z.of_nat j) ∧ board w !! i = Some row
       ∧ row !! j = Some EMPTY
       ∧ let s := side (heap w p) in
         let b' := <[i := <[j := s]> row]> (board w) in
         let w2 := with_board b' w1 in
         (turn p w = inl (Ok (Some s), log Info (win_msg b' (heap w1 p)) w2)
          ∧ winning_move b' mv = Ok true)
         ∨ (turn p w = inl (Ok None, log Info (draw_msg b') w2)
            ∧ winning_move b' mv = Ok false ∧ board_full b' = true)
         ∨ (turn p w = inr w2
            ∧ winning_move b' mv = Ok false ∧ board_full b' = false)).
Proof.
  intros Hsq Hreq. unfold tictactoe.turn. rewrite Hreq.
  destruct (request_spec _ _ _ _ Hreq) as (Hb & _ & _ & _ & _ & _ & Hside & _).
  rewrite Hb, Hside.
  destruct (valid_move (board w) mv) eqn:Hv; [right | by left].
  destruct (valid_move_cell n _ _ Hsq Hv) as (i & j & row & -> & Hi & Hj & Hrow & Hcell).
  exists i, j, row. repeat (split; [done|]).
  rewrite (board_set_cell n _ _ _ row) by done. cbn [board with_board].
  set (b' := <[i := <[j := side (heap w p)]> row]> (board w)).
  destruct (winning_move_total n b' (Z.of_nat i, Z.of_nat j)) as [r Hr].
  { by apply square_insert. }
  { unfold in_bounds; simpl; lia. }
  rewrite Hr. destruct r; [by left | right].
  destruct (board_full b'); [by left | by right].
Qed.

Lemma log_spec (lv : loglevel) (msg : string) w :
  heap (log lv msg w) = heap w ∧ board (log lv msg w) = board w
  ∧ players (log lv msg w) = players w ∧ logger (log lv msg w) = logger w
  ∧ shuffle (log lv msg w) = shuffle w ∧ rng (log lv msg w) = rng w
  ∧ ∃ logs, trace (log lv msg w) = trace w ++ logs ∧ Forall is_log logs
      ∧ logs = if logger w then [EvLog lv msg] else [].
Proof.
  unfold log. destruct (logger w) eqn:E; simpl; repeat split; try done.
  - eexists. split; [done|]. split; [|done]. by repeat constructor.
  - exists []. by rewrite app_nil_r.
Qed.

(** What a pass leaves unchanged, and what it adds to the log. *)
Lemma turn_post (n : nat) p w :
  square n (board w) →
  let w' := final_of (turn p w) in
  square n (board w') ∧ players w' = players w ∧ logger w' = logger w
  ∧ shuffle w' = shuffle w ∧ rng w' = rng w
  ∧ (∀ q, side (heap w' q) = side (heap w q))
  ∧ (cells_ok (board w) → cell_ok (side (heap w p)) → cells_ok (board w'))
  ∧ ∃ mv logs, trace w' = trace w ++ EvMove p (board w) mv :: logs
      ∧ Forall is_log logs ∧ mv = (player_move (heap w p) (board w)).1.
Proof.
  intros Hsq. destruct (request p w) as [mv w1] eqn:Hreq.
  destruct (request_spec _ _ _ _ Hreq)
    as (Hb & Hps & Hlg & Hsh & Hrng & Htr & Hside & Hmv).
  assert (∀ lv msg b,
    let w' := log lv msg (with_board b w1) in
    board w' = b ∧ players w' = players w ∧ logger w' = logger w
    ∧ shuffle w' = shuffle w ∧ rng w' = rng w
    ∧ (∀ q, side (heap w' q) = side (heap w q))
    ∧ ∃ mv' logs, trace w' = trace w ++ EvMove p (board w) mv' :: logs
        ∧ Forall is_log logs ∧ mv' = (player_move (heap w p) (board w)).1)
    as Hlog.
  { intros lv msg b.
    destruct (log_spec lv msg (with_board b w1))
      as (E1 & E2 & E3 & E4 & E5 & E6 & logs & E7 & E8 & _).
    simpl. rewrite E1, E2, E3, E4, E5, E6. simpl.
    repeat (split; [done|]). exists mv, logs. rewrite E7. simpl.
    rewrite Htr, <- (assoc_L (++)). done. }
  destruct (turn_spec n p w mv w1 Hsq Hreq)
    as [[Hv ->] | (i & j & row & -> & Hrow & Hcell & Hcases)].
  - simpl. destruct (log_spec Fatal "Invalid move" w1)
      as (E1 & E2 & E3 & E4 & E5 & E6 & logs & E7 & E8 & _).
    rewrite E1, E2, E3, E4, E5, E6, Hb.
    repeat (split; [done|]).
    exists mv, logs. rewrite E7, Htr, <- (assoc_L (++)). done.
  - assert (square n (<[i := <[j := side (heap w p)]> row]> (board w)))
      as Hsq' by by apply square_insert.
    assert (cells_ok (board w) → cell_ok (side (heap w p)) →
            cells_ok (<[i := <[j := side (heap w p)]> row]> (board w)))
      as Hok' by (intros; by apply cells_ok_insert).
    destruct Hcases as [[-> _] | [[-> _] | [-> _]]]; simpl.
    + destruct (Hlog Info
        (win_msg (<[i := <[j := side (heap w p)]> row]> (board w)) (heap w1 p))
        (<[i := <[j := side (heap w p)]> row]> (board w)))
        as (-> & ? & ? & ? & ? & ? & ?). done.
    + destruct (Hlog Info
        (draw_msg (<[i := <[j := side (heap w p)]> row]> (board w)))
        (<[i := <[j := side (heap w p)]> row]> (board w)))
        as (-> & ? & ? & ? & ? & ? & ?). done.
    + repeat (split; [done|]). exists (Z.of_nat i, Z.of_nat j), [].
      by rewrite Htr.
Qed.

Lemma logs_silent (logs : list event) :
  Forall is_log logs →
  moves logs = [] ∧ snapshots logs = [] ∧ starts logs = []
  ∧ finishes logs = [].
Proof.
  unfold moves, snapshots, starts, finishes.
  induction 1 as [|e logs He _ (H1 & H2 & H3 & H4)]; [done|].
  destruct e; simpl in *; done.
Qed.

(** What a valid or invalid move does to the board and to the result. *)
Lemma turn_outcome (n : nat) p w :
  square n (board w) →
  let mv := (player_move (heap w p) (board w)).1 in
  let w' := final_of (turn p w) in
  (valid_move (board w) mv = false ∧ board w' = board w
   ∧ turn p w = inl (Raise (ValueError (invalid_msg mv)), w'))
  ∨ (valid_move (board w) mv = true
     ∧ (side (heap w p) ≠ EMPTY →
        S (length (empty_cells (board w'))) = length (empty_cells (board w)))
     ∧ (turn p w = inl (Ok (Some (side (heap w p))), w')
        ∨ (turn p w = inl (Ok None, w') ∧ board_full (board w') = true)
        ∨ (turn p w = inr w' ∧ board_full (board w') = false))).
Proof.
  intros Hsq. destruct (request p w) as [mv w1] eqn:Hreq.
  destruct (request_spec _ _ _ _ Hreq)
    as (Hb & _ & _ & _ & _ & _ & _ & <-).
  destruct (turn_spec n p w mv w1 Hsq Hreq)
    as [[Hv Ht] | (i & j & row & Hmv & Hrow & Hcell & Hcases)].
  - left. rewrite Ht. simpl.
    destruct (log_spec Fatal "Invalid move" w1) as (_ & -> & _).
    by rewrite Hb.
  - right.
    assert (valid_move (board w) mv = true) as Hv.
    { apply bool_decide_eq_true, elem_of_empty_cells. exists (i, j). split.
      - subst mv. unfold position; simpl. rewrite decide_True by lia.
        by rewrite !Nat2Z.id.
      - unfold cell; simpl. by rewrite Hrow. }
    split; [done|].
    pose proof (empty_cells_insert (board w) i j row (side (heap w p))
                  Hrow Hcell) as Hcons.
    destruct Hcases as [[Ht _] | [[Ht [_ Hf]] | [Ht [_ Hf]]]];
      rewrite Ht; simpl.
    + destruct (log_spec Info
        (win_msg (<[i := <[j := side (heap w p)]> row]> (board w)) (heap w1 p))
        (with_board (<[i := <[j := side (heap w p)]> row]> (board w)) w1))
        as (_ & -> & _). simpl. auto.
    + destruct (log_spec Info
        (draw_msg (<[i := <[j := side (heap w p)]> row]> (board w)))
        (with_board (<[i := <[j := side (heap w p)]> row]> (board w)) w1))
        as (_ & -> & _). simpl. auto.
    + auto.
Qed.

(** *** The cycle *)

Lemma cycle_nth_elem ps k p : cycle_nth ps k = Some p → p ∈ ps.
Proof. unfold cycle_nth. intros H. by eapply list_elem_of_lookup_2. Qed.

Lemma cycle_nth_None ps k : cycle_nth ps k = None → ps = [].
Proof.
  unfold cycle_nth. intros H%lookup_ge_None. destruct ps as [|p ps]; [done|].
  pose proof (Nat.mod_upper_bound k (length (p :: ps))) as Hm.
  simpl in *. lia.
Qed.

(** *** Reachable states of the loop *)

Lemma passes_le ps k w k' w' : passes ps k w k' w' → (k ≤ k')%nat.
Proof. induction 1; lia. Qed.

Lemma passes_post (n : nat) ps k w k' w' :
  passes ps k w k' w' → square n (board w) →
  (k ≤ k')%nat ∧ square n (board w') ∧ players w' = players w
  ∧ logger w' = logger w ∧ shuffle w' = shuffle w ∧ rng w' = rng w
  ∧ (∀ q, side (heap w' q) = side (heap w q))
  ∧ ((∀ p, p ∈ ps → side (heap w p) ≠ EMPTY) →
     (length (empty_cells (board w')) + (k' - k)
      = length (empty_cells (board w)))%nat
     ∧ ((k < k')%nat → empty_cells (board w') ≠ []))
  ∧ ∃ t, trace w' = trace w ++ t ∧ length (moves t) = (k' - k)%nat
      ∧ starts t = [] ∧ finishes t = []
      ∧ ((∀ p, p ∈ ps → cell_ok (side (heap w p))) → cells_ok (board w) →
         cells_ok (board w') ∧ Forall (board_inv n) (snapshots t)).
Proof.
  induction 1 as [k w | k w p w1 k' w' Hp Ht Hpass IH]; intros Hsq.
  - repeat (split; [done|]). split.
    { intros _. split; [lia | lia]. }
    exists []. rewrite app_nil_r, Nat.sub_diag. do 4 (split; [done|]).
    intros _ Hok. split; [done | constructor].
  - pose proof (turn_post n p w Hsq) as Hpost.
    pose proof (turn_outcome n p w Hsq) as Hout.
    rewrite Ht in Hpost, Hout. simpl in Hpost, Hout.
    destruct Hpost as (Hsq1 & Hps & Hlg & Hsh & Hrng & Hside & Hok1
                       & mv & logs & Htr & Hlogs & _).
    destruct (IH Hsq1) as (Hk & Hsq' & Hps' & Hlg' & Hsh' & Hrng' & Hside'
                           & Hemp & t & Htr' & Hmoves & Hst & Hfin & Hinv).
    destruct (logs_silent logs Hlogs) as (Lm & Lsn & Lst & Lfin).
    split; [lia|]. split; [done|]. split; [congruence|].
    split; [congruence|]. split; [congruence|]. split; [congruence|].
    split; [intros q; by rewrite Hside', Hside|]. split.
    { intros Hne.
      destruct Hemp as [Hcount Hpos];
        [intros q Hq; rewrite Hside; by apply Hne|].
      destruct Hout as [(_ & _ & [=]) | (_ & Hcons & Hcases)].
      specialize (Hcons (Hne p (cycle_nth_elem _ _ _ Hp))).
      destruct Hcases as [[=] | [[[=] _] | [_ Hfull]]].
      split; [lia|]. intros _.
      destruct (decide (S k < k')%nat) as [Hlt | Hge]; [by apply Hpos|].
      assert (k' = S k) as -> by lia.
      assert (length (empty_cells (board w')) = length (empty_cells (board w1)))
        as Hlen by lia.
      intros Hnil. rewrite Hnil in Hlen. simpl in Hlen.
      assert (board_full (board w1) = true) as Hf.
      { apply board_full_iff. by destruct (empty_cells (board w1)). }
      congruence. }
    exists (EvMove p (board w) mv :: logs ++ t).
    split; [rewrite Htr', Htr, <- (assoc_L (++)); done|].
    unfold moves, snapshots, starts, finishes in *. simpl.
    rewrite !omap_app, Lm, Lsn, Lst, Lfin. simpl.
    split; [lia|]. split; [done|]. split; [done|].
    intros Hsides Hok.
    destruct Hinv as [Hok' Hsnaps].
    { intros q Hq. rewrite Hside. by apply Hsides. }
    { apply Hok1; [done|]. apply Hsides. by eapply cycle_nth_elem. }
    split; [done|]. by constructor.
Qed.

(** The loop returns what the pass that ends it returns. *)
Lemma play_loop_passes (fuel : nat) ps k w r w' :
  play_loop fuel ps k w = Some (r, w') →
  (ps = [] ∧ r = Ok None ∧ w' = w)
  ∨ ∃ k' wk p, passes ps k w k' wk ∧ cycle_nth ps k' = Some p
      ∧ turn p wk = inl (r, w') ∧ (k' - k < fuel)%nat.
Proof.
  revert k w. induction fuel as [|fuel IH]; intros k w; simpl; [done|].
  destruct (cycle_nth ps k) as [p|] eqn:Hp.
  - destruct (turn p w) as [[r0 w0] | w1] eqn:Ht.
    + intros [= -> ->]. right. exists k, w, p.
      repeat split; try done; [constructor | lia].
    + intros [Hnil | (k' & wk & q & Hpass & Hq & Hturn & Hlt)]%IH.
      * destruct Hnil as (-> & _). done.
      * right. exists k', wk, q. split; [by econstructor|].
        repeat split; try done.
        pose proof (passes_le _ _ _ _ _ Hpass). lia.
  - intros [= <- <-]. left. by apply cycle_nth_None in Hp.
Qed.

Lemma passes_play_loop ps k w k' wk p r w' :
  passes ps k w k' wk → cycle_nth ps k' = Some p → turn p wk = inl (r, w') →
  ∀ fuel, (k' - k < fuel)%nat → play_loop fuel ps k w = Some (r, w').
Proof.
  induction 1 as [k w | k w q w1 k' wk Hq Ht Hpass IH];
    intros Hp Hturn [|fuel] Hfuel; try lia; simpl.
  - by rewrite Hp, Hturn.
  - rewrite Hq, Ht. apply IH; [done | done |].
    pose proof (passes_le _ _ _ _ _ Hpass). lia.
Qed.

(** With players whose side is not [EMPTY], the loop returns within as many
    passes as there are empty cells (one pass when there is none). *)
Lemma play_loop_returns (n : nat) (fuel : nat) ps k w :
  square n (board w) → (∀ p, p ∈ ps → side (heap w p) ≠ EMPTY) →
  (1 `max` length (empty_cells (board w)) ≤ fuel)%nat →
  ∃ r w', play_loop fuel ps k w = Some (r, w').
Proof.
  revert k w. induction fuel as [|fuel IH]; intros k w Hsq Hne Hfuel;
    [lia|]. simpl.
  destruct (cycle_nth ps k) as [p|] eqn:Hp; [|eauto].
  pose proof (turn_post n p w Hsq) as Hpost.
  pose proof (turn_outcome n p w Hsq) as Hout.
  destruct (turn p w) as [[r0 w0] | w1] eqn:Ht; [eauto|].
  simpl in Hpost, Hout.
  destruct Hpost as (Hsq1 & _ & _ & _ & _ & Hside & _).
  destruct Hout as [(_ & _ & [=]) | (_ & Hcons & Hcases)].
  specialize (Hcons (Hne p (cycle_nth_elem _ _ _ Hp))).
  destruct Hcases as [[=] | [[[=] _] | [_ Hfull]]].
  apply (IH (S k) w1 Hsq1).
  - intros q Hq. rewrite Hside. by apply Hne.
  - destruct (empty_cells (board w1)) eqn:E; [|simpl in *; lia].
    apply board_full_iff in E. congruence.
Qed.

(** *** Shuffling *)

Lemma insert_perm_cons {A : Type} (l : list A) (j : nat) (a b : A) :
  l !! j = Some b → b :: <[j := a]> l ≡ₚ a :: l.
Proof.
  revert j. induction l as [|c l IH]; intros [|j] Hj; simpl in *; try done.
  - inversion Hj; subst. apply perm_swap.
  - etrans; [apply perm_swap|].
    etrans; [apply perm_skip, (IH j Hj)|]. apply perm_swap.
Qed.

Lemma swap_perm {A : Type} (i j : nat) (x : list A) : swap i j x ≡ₚ x.
Proof.
  unfold swap. destruct (x !! i) as [a|] eqn:Hi; [|done].
  destruct (x !! j) as [b|] eqn:Hj; [|done].
  revert i j Hi Hj. induction x as [|c x IH]; intros [|i] [|j] Hi Hj;
    simpl in *; try done.
  - by inversion Hi; inversion Hj; subst.
  - inversion Hi; subst. by apply insert_perm_cons.
  - inversion Hj; subst. by apply insert_perm_cons.
  - f_equiv. by apply IH.
Qed.

Lemma shuffle_down_perm {A : Type} (i k : nat) (x : list A) :
  (shuffle_down entropy i k x).1 ≡ₚ x.
Proof.
  revert k x. induction i as [|i IH]; intros k x; simpl; [done|].
  rewrite IH. apply swap_perm.
Qed.

Lemma random_shuffle_perm {A : Type} (k : nat) (x : list A) :
  (random_shuffle entropy k x).1 ≡ₚ x.
Proof. apply shuffle_down_perm. Qed.

(** Shuffling permutes the collection and touches nothing else: not the
    board, not the player objects, not the log. *)
Lemma enter_play_spec w :
  heap (enter_play w) = heap w ∧ board (enter_play w) = board w
  ∧ logger (enter_play w) = logger w ∧ shuffle (enter_play w) = shuffle w
  ∧ trace (enter_play w) = trace w
  ∧ players (enter_play w) ≡ₚ players w
  ∧ (shuffle w = false → enter_play w = w).
Proof.
  unfold tictactoe.enter_play. destruct (shuffle w) eqn:E.
  - pose proof (random_shuffle_perm (rng w) (players w)) as Hperm.
    destruct (random_shuffle entropy (rng w) (players w)) as [ps k].
    simpl in *. by rewrite E.
  - by rewrite E.
Qed.

(** *** Notifications *)

Lemma foldl_start (l : list ref) w :
  let w' :=
    foldl (λ w' p,
             emit (EvStart p)
               (with_heap (store p (set_pstate (player_start (heap w' p))
                                               (heap w' p)) (heap w')) w'))
          w l in
  board w' = board w ∧ players w' = players w ∧ logger w' = logger w
  ∧ shuffle w' = shuffle w ∧ rng w' = rng w
  ∧ (∀ q, side (heap w' q) = side (heap w q))
  ∧ trace w' = trace w ++ (EvStart <$> l).
Proof.
  revert w. induction l as [|p l IH]; intros w; simpl.
  - by rewrite app_nil_r.
  - match goal with |- context [foldl _ ?w0 l] => specialize (IH w0) end.
    simpl in IH. destruct IH as (-> & -> & -> & -> & -> & Hs & ->).
    repeat (split; [done|]). split.
    + intros q. rewrite Hs. apply side_store.
    + by rewrite <- (assoc_L (++)).
Qed.

Lemma foldl_finish (r : option Z) (l : list ref) w :
  let w' :=
    foldl (λ w' p,
             emit (EvFinish p r)
               (with_heap (store p (set_pstate (player_finish (heap w' p) r)
                                               (heap w' p)) (heap w')) w'))
          w l in
  board w' = board w ∧ players w' = players w ∧ logger w' = logger w
  ∧ shuffle w' = shuffle w ∧ rng w' = rng w
  ∧ (∀ q, side (heap w' q) = side (heap w q))
  ∧ trace w' = trace w ++ ((λ p, EvFinish p r) <$> l).
Proof.
  revert w. induction l as [|p l IH]; intros w; simpl.
  - by rewrite app_nil_r.
  - match goal with |- context [foldl _ ?w0 l] => specialize (IH w0) end.
    simpl in IH. destruct IH as (-> & -> & -> & -> & -> & Hs & ->).
    repeat (split; [done|]). split.
    + intros q. rewrite Hs. apply side_store.
    + by rewrite <- (assoc_L (++)).
Qed.

Lemma notify_start_spec w :
  let w' := notify_start w in
  board w' = board w ∧ players w' = players w ∧ logger w' = logger w
  ∧ shuffle w' = shuffle w ∧ rng w' = rng w
  ∧ (∀ q, side (heap w' q) = side (heap w q))
  ∧ trace w' = trace w ++ (EvStart <$> players w).
Proof. apply foldl_start. Qed.

Lemma notify_finish_spec (r : option Z) w :
  let w' := notify_finish r w in
  board w' = board w ∧ players w' = players w ∧ logger w' = logger w
  ∧ shuffle w' = shuffle w ∧ rng w' = rng w
  ∧ (∀ q, side (heap w' q) = side (heap w q))
  ∧ trace w' = trace w ++ ((λ p, EvFinish p r) <$> players w).
Proof. apply foldl_finish. Qed.

Lemma enter_run_spec (n : nat) w :
  square n (board w) →
  let w' := enter_run w in
  board w' = fill EMPTY (board w) ∧ board_inv n (board w')
  ∧ players w' = players w ∧ logger w' = logger w
  ∧ shuffle w' = shuffle w ∧ rng w' = rng w
  ∧ (∀ q, side (heap w' q) = side (heap w q))
  ∧ trace w' = trace w ++ (EvStart <$> players w).
Proof.
  intros Hsq. unfold tictactoe.enter_run.
  destruct (notify_start_spec (with_board (fill EMPTY (board w)) w))
    as (E1 & E2 & E3 & E4 & E5 & E6 & E7).
  simpl in *. rewrite E1. repeat (split; [done|]).
  split; [by apply fill_inv|]. done.
Qed.

(** *** Whole calls of [play] and [run] *)

Lemma side_in_sides (s : Z) : s ∈ sides → is_side s ∧ cell_ok s ∧ s ≠ EMPTY.
Proof.
  unfold sides, is_side, cell_ok, EMPTY, NOUGHT, CROSS.
  intros [-> | [-> | []%elem_of_nil]%elem_of_cons]%elem_of_cons;
    repeat split; auto; lia.
Qed.

Lemma play_post (n : nat) (fuel : nat) w r w' :
  square n (board w) → play fuel w = Some (r, w') →
  square n (board w') ∧ players w' = players (enter_play w)
  ∧ logger w' = logger w ∧ shuffle w' = shuffle w
  ∧ (∀ q, side (heap w' q) = side (heap w q))
  ∧ ∃ t, trace w' = trace w ++ t ∧ starts t = [] ∧ finishes t = []
      ∧ ((∀ p, p ∈ players w → cell_ok (side (heap w p))) →
         cells_ok (board w) →
         cells_ok (board w') ∧ Forall (board_inv n) (snapshots t)).
Proof.
  intros Hsq Hplay. unfold tictactoe.play in Hplay.
  destruct (enter_play_spec w) as (Eh & Eb & Elg & Esh & Etr & Eperm & _).
  set (w0 := enter_play w) in *.
  assert (square n (board w0)) as Hsq0 by by rewrite Eb.
  apply play_loop_passes in Hplay
    as [(Hnil & -> & ->) | (k & wk & p & Hpass & Hp & Hturn & _)].
  - repeat (split; [by rewrite ?Eh|]). exists [].
    rewrite app_nil_r. repeat (split; [done|]). intros _ Hok.
    split; [by rewrite Eb | constructor].
  - destruct (passes_post n _ _ _ _ _ Hpass Hsq0)
      as (_ & Hsqk & Hps & Hlg & Hsh & _ & Hside & _
          & t & Htr & _ & Hst & Hfin & Hinv).
    pose proof (turn_post n p wk Hsqk) as Hpost. rewrite Hturn in Hpost.
    simpl in Hpost.
    destruct Hpost as (Hsq' & Hps' & Hlg' & Hsh' & _ & Hside' & Hok'
                       & mv & logs & Htr' & Hlogs & _).
    destruct (logs_silent logs Hlogs) as (Lm & Lsn & Lst & Lfin).
    split; [done|]. split; [congruence|]. split; [congruence|].
    split; [congruence|].
    split; [intros q; by rewrite Hside', Hside, Eh|].
    exists (t ++ EvMove p (board wk) mv :: logs).
    split; [by rewrite Htr', Htr, Etr, <- (assoc_L (++))|].
    unfold snapshots, starts, finishes in *.
    rewrite !omap_app. cbn. rewrite Hst, Hfin, Lst, Lfin, Lsn.
    repeat (split; [done|]). intros Hsides Hok.
    assert (∀ q, q ∈ players w0 → cell_ok (side (heap w0 q))) as Hsides0.
    { intros q Hq. rewrite Eh. apply Hsides. by rewrite <- Eperm. }
    destruct Hinv as [Hokk Hsnaps]; [done | by rewrite Eb|].
    split.
    + apply Hok'; [done|]. rewrite Hside. apply Hsides0.
      by eapply cycle_nth_elem.
    + apply Forall_app. split; [done|].
      constructor; [by split | constructor].
Qed.

Lemma run_post (n : nat) (fuel : nat) w r w' :
  square n (board w) → run fuel w = Some (r, w') →
  square n (board w') ∧ players w' = players (enter_play (enter_run w))
  ∧ players w' ≡ₚ players w
  ∧ (shuffle w = false → players w' = players w)
  ∧ logger w' = logger w ∧ shuffle w' = shuffle w
  ∧ (∀ q, side (heap w' q) = side (heap w q))
  ∧ (configured w → cells_ok (board w') ∧ configured w')
  ∧ ∃ t, trace w' = trace w ++ (EvStart <$> players w) ++ t
      ∧ starts t = []
      ∧ (configured w → Forall (board_inv n) (snapshots t)).
Proof.
  intros Hsq Hrun. unfold tictactoe.run in Hrun.
  destruct (enter_run_spec n w Hsq)
    as (_ & [Hsq1 Hok1] & Hps1 & Hlg1 & Hsh1 & _ & Hside1 & Htr1).
  set (w1 := enter_run w) in *.
  destruct (play fuel w1) as [[r2 w2]|] eqn:Hplay; [|done].
  destruct (play_post n fuel w1 r2 w2 Hsq1 Hplay)
    as (Hsq2 & Hps2 & Hlg2 & Hsh2 & Hside2 & t & Htr2 & Hst & Hfin & Hinv).
  destruct (enter_play_spec w1) as (_ & _ & _ & _ & _ & Eperm & Eid).
  assert (∃ t3, board w' = board w2 ∧ players w' = players w2
          ∧ logger w' = logger w2 ∧ shuffle w' = shuffle w2
          ∧ (∀ q, side (heap w' q) = side (heap w2 q))
          ∧ trace w' = trace w2 ++ t3 ∧ starts t3 = []
          ∧ snapshots t3 = []) as (t3 & Hb3 & Hps3 & Hlg3 & Hsh3 & Hside3
                                   & Htr3 & Hst3 & Hsn3).
  { destruct r2 as [winner | e]; inversion Hrun; subst; clear Hrun.
    - destruct (notify_finish_spec winner w2)
        as (F1 & F2 & F3 & F4 & _ & F6 & F7).
      exists ((λ p, EvFinish p winner) <$> players w2).
      split_and!; try done; unfold starts, snapshots;
        generalize (players w2) as l; intros l;
        (induction l as [|q l IH]; [done | exact IH]).
    - exists []. by rewrite app_nil_r. }
  assert (players w' ≡ₚ players w) as Hperm.
  { by rewrite Hps3, Hps2, Eperm, Hps1. }
  assert (∀ q, side (heap w' q) = side (heap w q)) as Hside.
  { intros q. by rewrite Hside3, Hside2, Hside1. }
  split; [by rewrite Hb3|]. split; [congruence|]. split; [done|].
  split. { intros Hno. rewrite Hps3, Hps2, Eid; [done | congruence]. }
  split; [congruence|]. split; [congruence|]. split; [done|].
  assert (configured w →
          cells_ok (board w2) ∧ Forall (board_inv n) (snapshots t)) as Hcfg.
  { intros [_ Hsides]. apply Hinv; [|done].
    intros q Hq. rewrite Hside1. rewrite Hps1 in Hq.
    rewrite Forall_forall in Hsides. by apply side_in_sides, Hsides. }
  split.
  { intros Hc. destruct (Hcfg Hc) as [Hok2 _]. split; [by rewrite Hb3|].
    destruct Hc as [Hlen Hsides]. split.
    - by rewrite Hperm.
    - rewrite Hperm. eapply Forall_impl; [exact Hsides|].
      intros q Hq. simpl in *. by rewrite Hside. }
  exists (t ++ t3). split.
  { by rewrite Htr3, Htr2, Htr1, <- !(assoc_L (++)). }
  unfold starts, snapshots in *. rewrite !omap_app, Hst, Hst3, Hsn3.
  split; [done|]. intros Hc. rewrite app_nil_r. by apply Hcfg.
Qed.

Lemma after_runs_post (n : nat) w w' :
  after_runs w w' → square n (board w) →
  square n (board w') ∧ players w' ≡ₚ players w
  ∧ (shuffle w = false → players w' = players w)
  ∧ logger w' = logger w ∧ shuffle w' = shuffle w
  ∧ (∀ q, side (heap w' q) = side (heap w q))
  ∧ (configured w → cells_ok (board w) →
     configured w' ∧ cells_ok (board w')).
Proof.
  induction 1 as [w | w fuel r w1 w' Hrun _ IH]; intros Hsq.
  - split_and!; auto.
  - destruct (run_post n fuel w r w1 Hsq Hrun)
      as (Hsq1 & _ & Hperm & Hfix & Hlg & Hsh & Hside & Hcfg & _).
    destruct (IH Hsq1) as (Hsq' & Hperm' & Hfix' & Hlg' & Hsh' & Hside' & Hcfg').
    split; [done|]. split; [by rewrite Hperm'|].
    split. { intros Hno. rewrite Hfix', Hfix; [done | done | congruence]. }
    split; [congruence|]. split; [congruence|].
    split; [intros q; by rewrite Hside', Hside|].
    intros Hc _. destruct (Hcfg Hc). by apply Hcfg'.
Qed.

(** *** set_players and the constructor *)

Lemma elem_of_pair {A : Type} (x a b : A) : x ∈ [a; b] → x = a ∨ x = b.
Proof.
  intros [-> | Hx%list_elem_of_singleton]%elem_of_cons; auto.
Qed.

Lemma set_players_spec ps w w' :
  set_players ps w = Ok w' →
  ∃ a b, ps = [a; b] ∧ players w' = ps ∧ board w' = board w
    ∧ logger w' = logger w ∧ shuffle w' = shuffle w ∧ rng w' = rng w
    ∧ trace w' = trace w
    ∧ side (heap w' b) = NOUGHT ∧ (a ≠ b → side (heap w' a) = CROSS)
    ∧ (∀ q, q ∉ ps → heap w' q = heap w q)
    ∧ configured w'.
Proof.
  unfold set_players. case_decide as Hlen; [done|]. intros [= <-].
  destruct ps as [|a [|b [|c ps]]]; simpl in Hlen; try done.
  exists a, b. simpl. unfold assign_sides, store, configured; simpl.
  repeat (split; [done|]). split; [by rewrite decide_True|].
  split. { intros Hab. rewrite decide_False by done. by rewrite decide_True. }
  split.
  { intros q Hq. rewrite !decide_False; [done | |]; intros ->; apply Hq;
      set_solver. }
  split; [done|].
  apply Forall_cons. split; [|apply Forall_cons; split; [|constructor]].
  - destruct (decide (a = b)) as [->|]; simpl.
    + unfold sides. set_solver.
    + rewrite decide_True by done. simpl. unfold sides. set_solver.
  - rewrite decide_True by done. simpl. unfold sides. set_solver.
Qed.

Lemma set_players_raises ps w :
  (∃ msg, set_players ps w = Raise (ValueError msg)) ↔ length ps ≠ 2%nat.
Proof.
  unfold set_players. change (length sides) with 2%nat.
  case_decide; split; try done; eauto. by intros [msg [=]].
Qed.

Lemma init_spec (h : ref → PlayerObj PState) ps (n : nat) (shuf lg : bool)
    (k : nat) w0 :
  init h ps n shuf lg k = Ok w0 →
  board_inv n (board w0) ∧ configured w0 ∧ players w0 = ps
  ∧ shuffle w0 = shuf ∧ logger w0 = lg ∧ trace w0 = []
  ∧ Forall (λ row, Forall (eq EMPTY) row) (board w0).
Proof.
  unfold init.
  destruct (set_players ps _) as [w|e] eqn:Hset; simpl; [|done].
  intros [= <-]. simpl.
  destruct (set_players_spec _ _ _ Hset)
    as (a & b & -> & Hps & Hb & _ & _ & _ & Htr & _ & _ & _ & Hcfg).
  simpl in *. rewrite Hb, Hps, Htr.
  assert (Forall (λ row : list Z, Forall (eq EMPTY) row)
            (replicate n (replicate n 0))) as Hzero.
  { apply Forall_replicate. by apply Forall_replicate. }
  assert (board_inv n (replicate n (replicate n 0))) as Hinv.
  { split; [split|].
    - by rewrite length_replicate.
    - apply Forall_replicate. by rewrite length_replicate.
    - eapply Forall_impl; [exact Hzero|]. intros row Hrow.
      eapply Forall_impl; [exact Hrow|]. intros v <-. by left. }
  split_and!; try done.
  unfold configured in *. rewrite Hps in Hcfg. exact Hcfg.
Qed.

(** C4. [set_players] raises [ValueError] exactly when the list does not
    hold two players; otherwise it keeps the list as the collection and
    gives its two (distinct) players the sides of [rules.sides] in list
    order, CROSS then NOUGHT, two different sides; the outcome depends on
    the list and the store only (no random draw enters it), and neither the
    shuffle of [play] nor any number of later runs changes a player's
    side. *)
Theorem set_players_binds_sides (n : nat) ps w :
  square n (board w) →
  ((∃ msg, set_players ps w = Raise (ValueError msg)) ↔ length ps ≠ 2%nat)
  ∧ (length ps = 2%nat → ∃ w', set_players ps w = Ok w')
  ∧ ∀ w', set_players ps w = Ok w' →
      players w' = ps
      ∧ (NoDup ps →
         Forall2 (λ p s, side (heap w' p) = s) ps sides
         ∧ ∀ p q, p ∈ ps → q ∈ ps → p ≠ q →
             side (heap w' p) ≠ side (heap w' q))
      ∧ (∀ k, ∃ w2, set_players ps (with_rng k w) = Ok w2
                   ∧ heap w2 = heap w' ∧ players w2 = players w')
      ∧ (∀ q, side (heap (enter_play w') q) = side (heap w' q))
      ∧ (∀ w'', after_runs w' w'' →
           ∀ q, side (heap w'' q) = side (heap w' q)).
Proof.
  intros Hsq. split; [apply set_players_raises|]. split.
  { intros Hlen. unfold set_players. rewrite decide_False; [eauto|].
    rewrite Hlen. by intros []. }
  intros w' Hset.
  destruct (set_players_spec _ _ _ Hset)
    as (a & b & -> & Hps & Hb & _ & _ & _ & _ & Hsb & Hsa & _ & _).
  split; [done|]. split; [|split; [|split]].
  - intros Hnd. assert (a ≠ b) as Hab.
    { intros ->. apply NoDup_cons in Hnd as [Hin _]. set_solver. }
    specialize (Hsa Hab). split.
    + unfold sides. by repeat constructor.
    + intros p q Hp Hq Hpq.
      apply elem_of_pair in Hp as [-> | ->];
        apply elem_of_pair in Hq as [-> | ->];
        try done; rewrite Hsa, Hsb; done.
  - intros k. unfold set_players in Hset |- *.
    destruct (decide (length [a; b] ≠ length sides)); [done|].
    inversion Hset; subst. eexists. split; [reflexivity | done].
  - intros q. by destruct (enter_play_spec w') as (-> & _).
  - intros w'' Hruns. eapply after_runs_post; [done|]. by rewrite Hb.
Qed.

(** *** Termination *)

(** C8. On an n x n board (n ≥ 1) with the two players' sides assigned,
    [play] returns once it is given n² passes: it ends with a side (win),
    with [None] (draw) or with the illegal-move [ValueError], after at most
    n² move requests; and every valid move, at whatever point of the play,
    leaves exactly one empty cell less. *)
Theorem play_terminates (n fuel : nat) w :
  (1 ≤ n)%nat → square n (board w) → configured w → (n * n ≤ fuel)%nat →
  ∃ r w',
    play fuel w = Some (r, w')
    ∧ ((∃ s, r = Ok (Some s) ∧ s ∈ sides) ∨ r = Ok None
       ∨ ∃ mv, r = Raise (ValueError (invalid_msg mv)))
    ∧ (∃ t, trace w' = trace w ++ t ∧ (length (moves t) ≤ n * n)%nat)
    ∧ ∀ k wk p,
        passes (players (enter_play w)) 0 (enter_play w) k wk →
        cycle_nth (players (enter_play w)) k = Some p →
        valid_move (board wk) (player_move (heap wk p) (board wk)).1 = true →
        S (length (empty_cells (board (final_of (turn p wk)))))
        = length (empty_cells (board wk)).
Proof.
  intros Hn Hsq [Hlen Hsides] Hfuel.
  destruct (enter_play_spec w) as (Eh & Eb & _ & _ & Etr & Eperm & _).
  set (w0 := enter_play w) in *.
  assert (square n (board w0)) as Hsq0 by by rewrite Eb.
  assert (∀ q, q ∈ players w0 → side (heap w0 q) ∈ sides) as Hsides0.
  { intros q Hq. rewrite Eh. rewrite Forall_forall in Hsides.
    apply Hsides. by rewrite <- Eperm. }
  assert (∀ q, q ∈ players w0 → side (heap w0 q) ≠ EMPTY) as Hne0.
  { intros q Hq. by apply side_in_sides, Hsides0. }
  pose proof (empty_cells_length n _ Hsq0) as Hcells.
  destruct (play_loop_returns n fuel (players w0) 0 w0 Hsq0 Hne0)
    as (r & w' & Hplay); [nia|].
  exists r, w'. split; [done|].
  assert (∀ k wk p, passes (players w0) 0 w0 k wk →
            cycle_nth (players w0) k = Some p →
            square n (board wk) ∧ side (heap wk p) ∈ sides
            ∧ (length (empty_cells (board wk)) + k
               = length (empty_cells (board w0)))%nat
            ∧ ((0 < k)%nat → empty_cells (board wk) ≠ [])
            ∧ ∃ t, trace wk = trace w0 ++ t ∧ length (moves t) = k)
    as Hreach.
  { intros k wk p Hpass Hp.
    destruct (passes_post n _ _ _ _ _ Hpass Hsq0)
      as (_ & Hsqk & _ & _ & _ & _ & Hside & Hemp & t & Htr & Hmoves & _).
    destruct (Hemp Hne0) as [Hcount Hpos].
    split; [done|]. split.
    { rewrite Hside. apply Hsides0. by eapply cycle_nth_elem. }
    rewrite Nat.sub_0_r in *. split; [done|]. split; [done|]. eauto. }
  apply play_loop_passes in Hplay
    as [(Hnil & -> & ->) | (k & wk & p & Hpass & Hp & Hturn & _)].
  - split; [auto|]. split.
    { exists []. rewrite app_nil_r. split; [done | simpl; lia]. }
    intros k wk p _ Hp. apply cycle_nth_elem in Hp. rewrite Hnil in Hp.
    by apply elem_of_nil in Hp.
  - destruct (Hreach k wk p Hpass Hp)
      as (Hsqk & Hsk & Hcount & Hpos & t & Htr & Hmoves).
    pose proof (turn_outcome n p wk Hsqk) as Hout.
    pose proof (turn_post n p wk Hsqk) as Hpost.
    rewrite Hturn in Hout, Hpost. simpl in Hout, Hpost.
    destruct Hpost as (_ & _ & _ & _ & _ & _ & _ & mv & logs & Htr' & Hlogs & _).
    destruct (logs_silent logs Hlogs) as (Lm & _).
    split.
    { destruct Hout as [(_ & _ & [= ->]) | (_ & _ & Hcases)]; [eauto|].
      destruct Hcases as [[= ->] | [[[= ->] _] | [[=] _]]]; eauto. }
    split.
    { exists (t ++ EvMove p (board wk) mv :: logs).
      split; [by rewrite Htr', Htr, Etr, <- (assoc_L (++))|].
      unfold moves in *. rewrite omap_app, length_app. cbn.
      rewrite Lm. simpl. rewrite Hmoves.
      destruct (decide (k = 0)%nat) as [-> | Hk]; [nia|].
      specialize (Hpos ltac:(lia)).
      destruct (empty_cells (board wk)); [done|]. simpl in *. lia. }
    intros k1 wk1 p1 Hpass1 Hp1 Hv.
    destruct (Hreach k1 wk1 p1 Hpass1 Hp1) as (Hsq1 & Hs1 & _).
    destruct (turn_outcome n p1 wk1 Hsq1) as [(Hv' & _) | (_ & Hcons & _)];
      [congruence|].
    by apply Hcons, side_in_sides.
Qed.

(** *** Illegal moves *)

Lemma turn_invalid p w :
  let mv := (player_move (heap w p) (board w)).1 in
  valid_move (board w) mv = false →
  ∃ w', turn p w = inl (Raise (ValueError (invalid_msg mv)), w')
    ∧ board w' = board w
    ∧ trace w' = trace w ++ EvMove p (board w) mv
                   :: (if logger w then [EvLog Fatal "Invalid move"] else []).
Proof.
  unfold tictactoe.turn, tictactoe.request.
  destruct (player_move (heap w p) (board w)) as [mv st]. simpl.
  intros ->. eexists. split; [done|]. unfold log. simpl.
  destruct (logger w); simpl; split; try done.
  by rewrite <- (assoc_L (++)).
Qed.

(** C5. When, at any point of the play, the player whose turn it is
    answers with a coordinate that is not among the empty cells of the
    board, [play] (and [run]) raises the illegal-move [ValueError]; the
    board at the raise is the board just before the request; after the
    offending request nothing more is asked of any player (the log ends
    with that request and, with a logger, the fatal record): no retry, no
    corrected move, no finish notification. *)
Theorem illegal_move_aborts (n : nat) w (k : nat) wk p :
  square n (board w) →
  passes (players (enter_play w)) 0 (enter_play w) k wk →
  cycle_nth (players (enter_play w)) k = Some p →
  (player_move (heap wk p) (board wk)).1 ∉ empty_cells (board wk) →
  ∃ w',
    board w' = board wk
    ∧ trace w' = trace wk
        ++ EvMove p (board wk) (player_move (heap wk p) (board wk)).1
           :: (if logger w then [EvLog Fatal "Invalid move"] else [])
    ∧ (∀ fuel, (k < fuel)%nat →
         play fuel w
         = Some (Raise (ValueError
               (invalid_msg (player_move (heap wk p) (board wk)).1)), w'))
    ∧ (∀ w_pre fuel, w = enter_run w_pre → (k < fuel)%nat →
         run fuel w_pre
         = Some (Raise (ValueError
               (invalid_msg (player_move (heap wk p) (board wk)).1)), w')).
Proof.
  intros Hsq Hpass Hp Hnot.
  destruct (enter_play_spec w) as (_ & Eb & Elg & _).
  assert (square n (board (enter_play w))) as Hsq0 by by rewrite Eb.
  destruct (passes_post n _ _ _ _ _ Hpass Hsq0) as (_ & _ & _ & Hlg & _).
  destruct (turn_invalid p wk) as (w' & Hturn & Hb & Htr).
  { by apply bool_decide_eq_false. }
  exists w'. split; [done|]. split; [by rewrite Htr, Hlg, Elg|].
  assert (∀ fuel, (k < fuel)%nat →
    play fuel w
    = Some (Raise (ValueError
          (invalid_msg (player_move (heap wk p) (board wk)).1)), w'))
    as Hplay.
  { intros fuel Hfuel. unfold tictactoe.play.
    eapply passes_play_loop; [done | done | done | lia]. }
  split; [done|]. intros w_pre fuel -> Hfuel.
  unfold tictactoe.run. by rewrite Hplay.
Qed.

(** *** The board invariant *)

(** C7. From the construction of the runner on, through any number of
    runs: the board is n x n with every cell EMPTY, +1 or -1 between runs,
    after the reset (which empties every cell), at every pass of the loop
    of [play], after every move application, in every copy handed to a
    player, and when [run] returns. *)
Theorem board_invariant_maintained (n : nat) (h : ref → PlayerObj PState)
    ps (shuf lg : bool) (k0 : nat) w0 w :
  init h ps n shuf lg k0 = Ok w0 → after_runs w0 w →
  board_inv n (board w)
  ∧ board_inv n (board (enter_run w))
  ∧ Forall (Forall (eq EMPTY)) (board (enter_run w))
  ∧ (∀ k wk, passes (players (enter_play (enter_run w))) 0
               (enter_play (enter_run w)) k wk →
       board_inv n (board wk)
       ∧ ∀ p, cycle_nth (players (enter_play (enter_run w))) k = Some p →
           board_inv n (board (final_of (turn p wk))))
  ∧ (∀ fuel r w', run fuel w = Some (r, w') →
       board_inv n (board w')
       ∧ ∃ t, trace w' = trace w ++ t ∧ Forall (board_inv n) (snapshots t)).
Proof.
  intros Hinit Hruns.
  destruct (init_spec _ _ _ _ _ _ _ Hinit)
    as ([Hsq0 Hok0] & Hcfg0 & _).
  destruct (after_runs_post n _ _ Hruns Hsq0)
    as (Hsq & _ & _ & _ & _ & _ & Hkeep).
  destruct (Hkeep Hcfg0 Hok0) as [Hcfg Hok].
  destruct (enter_run_spec n w Hsq)
    as (Hfill & [Hsq1 Hok1] & Hps1 & _ & _ & _ & Hside1 & _).
  split; [done|]. split; [done|]. split.
  { rewrite Hfill. unfold fill. apply Forall_map, Forall_true.
    intros row. by apply Forall_map, Forall_true. }
  split.
  - intros k wk Hpass.
    destruct (enter_play_spec (enter_run w))
      as (Eh & Eb & _ & _ & _ & Eperm & _).
    set (w2 := enter_play (enter_run w)) in *.
    assert (∀ q, q ∈ players w2 → cell_ok (side (heap w2 q))) as Hsides.
    { intros q Hq. rewrite Eh, Hside1. destruct Hcfg as [_ Hall].
      rewrite Forall_forall in Hall. apply side_in_sides, Hall.
      by rewrite <- Hps1, <- Eperm. }
    assert (square n (board w2)) as Hsq2 by by rewrite Eb.
    destruct (passes_post n _ _ _ _ _ Hpass Hsq2)
      as (_ & Hsqk & _ & _ & _ & _ & Hside & _ & t & _ & _ & _ & _ & Hinv).
    destruct Hinv as [Hokk _]; [done | by rewrite Eb|].
    split; [done|]. intros p Hp.
    destruct (turn_post n p wk Hsqk) as (Hsq' & _ & _ & _ & _ & _ & Hok' & _).
    split; [done|]. apply Hok'; [done|]. rewrite Hside.
    apply Hsides. by eapply cycle_nth_elem.
  - intros fuel r w' Hrun.
    destruct (run_post n fuel w r w' Hsq Hrun)
      as (Hsq' & _ & _ & _ & _ & _ & _ & Hc & t & Htr & _ & Hsn).
    destruct (Hc Hcfg) as [Hok' _]. split; [done|].
    exists ((EvStart <$> players w) ++ t). split; [done|].
    unfold snapshots in *. rewrite omap_app.
    replace (omap snapshot_of (EvStart <$> players w)) with (@nil Board).
    + by apply Hsn.
    + generalize (players w) as l. intros l.
      induction l as [|q l IH]; [done | exact IH].
Qed.

(** *** The 1 x 1 board *)

Lemma square_one (b : Board) : square 1 b → ∃ v, b = [[v]].
Proof.
  intros [Hlen Hrows]. destruct b as [|row [|]]; try done.
  apply Forall_cons in Hrows as [Hrow _].
  destruct row as [|v [|]]; try done. by exists v.
Qed.

(** C10. On a 1 x 1 board with the sides assigned, [play] makes exactly
    one request, to the player at the head of the cycle: a valid answer
    wins at once and [play] returns that player's side, an invalid answer
    raises the illegal-move error; the draw value [None] is never returned;
    [run] returns the same result. *)
Theorem one_by_one_first_mover_wins (fuel : nat) w :
  square 1 (board w) → configured w → (1 ≤ fuel)%nat →
  ∃ p r w',
    cycle_nth (players (enter_play w)) 0 = Some p
    ∧ play fuel w = Some (r, w')
    ∧ (∃ logs, trace w' = trace w
                 ++ EvMove p (board w) (player_move (heap w p) (board w)).1
                    :: logs ∧ Forall is_log logs)
    ∧ side (heap w p) ∈ sides
    ∧ (valid_move (board w) (player_move (heap w p) (board w)).1 = true →
       r = Ok (Some (side (heap w p))))
    ∧ (valid_move (board w) (player_move (heap w p) (board w)).1 = false →
       r = Raise (ValueError
                    (invalid_msg (player_move (heap w p) (board w)).1)))
    ∧ r ≠ Ok None
    ∧ (∀ w_pre, w = enter_run w_pre → ∃ w'', run fuel w_pre = Some (r, w'')).
Proof.
  intros Hsq [Hlen Hsides] Hfuel.
  destruct (enter_play_spec w) as (Eh & Eb & _ & _ & Etr & Eperm & _).
  unfold tictactoe.play. set (w0 := enter_play w) in *.
  assert (length (players w0) = 2%nat) as Hlen0 by by rewrite Eperm.
  destruct (players w0) as [|p [|q [|]]] eqn:Hps; try done.
  assert (side (heap w p) ∈ sides) as Hp.
  { rewrite Forall_forall in Hsides. apply Hsides. rewrite <- Eperm.
    set_solver. }
  assert (square 1 (board w0)) as Hsq0 by by rewrite Eb.
  destruct fuel as [|fuel]; [lia|]. simpl.
  change (cycle_nth [p; q] 0) with (Some p).
  destruct (request p w0) as [mv w1] eqn:Hreq.
  destruct (request_spec _ _ _ _ Hreq) as (_ & _ & _ & _ & _ & _ & _ & Hmv).
  rewrite Eh, Eb in Hmv.
  pose proof (turn_post 1 p w0 Hsq0) as Hpost.
  assert (∀ r w', turn p w0 = inl (r, w') →
    ∃ logs, trace w' = trace w ++ EvMove p (board w) mv :: logs
            ∧ Forall is_log logs) as Htrace.
  { intros r w' Ht. rewrite Ht in Hpost. simpl in Hpost.
    destruct Hpost as (_ & _ & _ & _ & _ & _ & _ & mv' & logs & Htr' & Hl & E).
    exists logs. rewrite Eh, Eb in E. rewrite Htr', Etr, Eb.
    split; [|done]. by rewrite Hmv, E. }
  destruct (turn_spec 1 p w0 mv w1 Hsq0 Hreq)
    as [[Hv Ht] | (i & j & row & Emv & Hrow & Hcell & Hcases)].
  - rewrite Ht. eexists p, _, _. rewrite <- Hmv.
    split; [done|]. split; [done|].
    split; [by eapply Htrace|]. split; [done|]. rewrite <- Eb.
    split; [congruence|]. split; [done|]. split; [done|].
    intros w_pre ->. unfold tictactoe.run, tictactoe.play.
    fold w0. rewrite Hps. simpl. change (cycle_nth [p; q] 0) with (Some p).
    rewrite Ht. eauto.
  - assert (valid_move (board w0) mv = true) as Hv.
    { destruct (turn_outcome 1 p w0 Hsq0) as [(_ & _ & Hbad) | (Hv & _)].
      - destruct Hcases as [[Ht _] | [[Ht _] | [Ht _]]];
          rewrite Ht in Hbad; simpl in Hbad; congruence.
      - rewrite Eh, Eb, <- Hmv in Hv. by rewrite Eb. }
    destruct (square_one _ Hsq0) as [v Hb].
    rewrite Hb in Hrow, Hcases.
    destruct i as [|i]; simpl in Hrow; [|done].
    inversion Hrow; subst row. destruct j as [|j]; simpl in Hcell; [|done].
    simpl in Hcases. rewrite Eh in Hcases.
    assert (winning_move [[side (heap w p)]] mv = Ok true) as Hwin.
    { rewrite Emv. apply side_in_sides in Hp as [[-> | ->] _]; reflexivity. }
    destruct Hcases as [[Ht _] | [[_ [Hno _]] | [_ [Hno _]]]];
      [|congruence|congruence].
    rewrite Ht. eexists p, _, _. rewrite <- Hmv.
    split; [done|]. split; [done|].
    split; [by eapply Htrace|]. split; [done|]. rewrite <- Eb.
    split; [done|]. split; [congruence|]. split; [done|].
    intros w_pre ->. unfold tictactoe.run, tictactoe.play.
    fold w0. rewrite Hps. simpl. change (cycle_nth [p; q] 0) with (Some p).
    rewrite Ht. eauto.
Qed.

(** *** Shuffling and the start notifications *)

Lemma starts_of_starts (l : list ref) : starts (EvStart <$> l) = l.
Proof. induction l as [|p l IH]; [done|]. unfold starts. cbn. by f_equal. Qed.

(** C6 (as the code has it). [random.shuffle] permutes the runner's player
    collection in place, and the permutation stays for the next run.  In
    every run the start notifications go out in the order the collection
    has when that run begins: the order given to [set_players] in the
    first run and, without shuffling, in every run; with shuffling, that
    order as permuted by the earlier runs.  The collection is always a
    permutation of the players supplied, and no shuffle and no run changes
    a player's side. *)
Theorem start_order_is_collection_order (n : nat)
    (h : ref → PlayerObj PState) ps (shuf lg : bool) (k0 : nat) w0 w
    (fuel : nat) r w' :
  init h ps n shuf lg k0 = Ok w0 → after_runs w0 w →
  run fuel w = Some (r, w') →
  (∃ t, trace w' = trace w ++ t ∧ starts t = players w)
  ∧ players w0 = ps ∧ players w ≡ₚ ps ∧ players w' ≡ₚ ps
  ∧ (shuf = false → players w = ps ∧ players w' = ps)
  ∧ (∀ q, side (heap w q) = side (heap w0 q))
  ∧ (∀ q, side (heap (enter_play (enter_run w)) q) = side (heap w0 q))
  ∧ (∀ q, side (heap w' q) = side (heap w0 q)).
Proof.
  intros Hinit Hruns Hrun.
  destruct (init_spec _ _ _ _ _ _ _ Hinit)
    as ([Hsq0 _] & _ & Hps0 & Hsh0 & _).
  destruct (after_runs_post n _ _ Hruns Hsq0)
    as (Hsq & Hperm & Hfix & _ & Hsh & Hside & _).
  destruct (run_post n fuel w r w' Hsq Hrun)
    as (_ & _ & Hperm' & Hfix' & _ & _ & Hside' & _ & t & Htr & Hst & _).
  destruct (enter_run_spec n w Hsq) as (_ & _ & _ & _ & _ & _ & Hside1 & _).
  destruct (enter_play_spec (enter_run w)) as (Eh & _).
  split.
  { exists ((EvStart <$> players w) ++ t). split; [done|].
    unfold starts in *. rewrite omap_app, Hst, app_nil_r.
    apply starts_of_starts. }
  split; [done|]. split; [by rewrite Hperm, Hps0|].
  split; [by rewrite Hperm', Hperm, Hps0|]. split.
  { intros ->. rewrite Hfix', Hfix; [by rewrite Hps0 | done | congruence]. }
  split; [done|]. split; [intros q; by rewrite Eh, Hside1|].
  intros q. by rewrite Hside'.
Qed.

End Facts.
End runner_facts.

(** ** Concrete matches *)

Module scenarios.
Import rules board_spec rules_facts tictactoe runner_facts.

Ltac by_compute :=
  match goal with
  | |- ?P => apply (bool_decide_unpack P); vm_compute; exact I
  end.

Example token_samples :
  token 1 = "o" ∧ token (-1) = "x" ∧ token 0 = " " ∧ token 7 = "?".
Proof. by repeat split. Qed.

Example winning_samples :
  winning_move [[1; 0; -1]; [0; 1; -1]; [0; 0; 1]] (2, 2) = Ok true
  ∧ winning_move [[1; 0; -1]; [0; 1; -1]; [0; 0; 0]] (1, 1) = Ok false
  ∧ winning_move [[1; 0; -1]; [0; 1; -1]; [0; 0; 0]] (3, 0) = Raise IndexError
  ∧ winning_move [[1; 1; 1]; [0; 0; -1]; [0; 0; -1]] (-3, 7) = Ok true.
Proof. repeat split; reflexivity. Qed.

Example board_str_sample :
  board_str [[1; 0; -1]; [0; 1; -1]] = "o| |x" +:+ newline +:+ " |o|x".
Proof. reflexivity. Qed.

Example greedy_match :
  ∃ w', greedy.run (λ _, 1%nat) 9 (greedy.game 3 false)
        = Some (Ok (Some CROSS), w')
    ∧ board w' = [[-1; 1; -1]; [1; -1; 1]; [-1; 0; 0]].
Proof. eexists. split; vm_compute; reflexivity. Qed.

(** *** The end-to-end scenario *)

Lemma end_to_end_constructed :
  init (scripted.objects [(0, 0); (1, 1); (2, 2)] [(0, 1); (1, 0)])
       [0%nat; 1%nat] 3 false false 0
  = Ok scripted.end_to_end.
Proof. reflexivity. Qed.

Lemma end_to_end_never_nought (fuel : nat) w' :
  scripted.run fuel scripted.end_to_end ≠ Some (Ok (Some NOUGHT), w').
Proof.
  destruct fuel as [|[|[|[|[|fuel]]]]]; vm_compute; discriminate.
Qed.

(** C2, as stated, fails: supplied first, A is given CROSS (-1), the head of
    [rules.sides], and [run] never returns +1. *)
Lemma end_to_end_counterexample :
  ¬ scripted.end_to_end_as_stated
  ∧ side (heap scripted.end_to_end 0%nat) ≠ NOUGHT
  ∧ ∀ fuel w',
      scripted.run fuel scripted.end_to_end ≠ Some (Ok (Some NOUGHT), w').
Proof.
  split; [|split].
  - intros (Ha & _). vm_compute in Ha. discriminate.
  - vm_compute. discriminate.
  - apply end_to_end_never_nought.
Qed.

(** C2 (as the code has it). With A and B supplied in this order and no
    shuffling, A holds -1 and B holds +1; the five moves (0,0) A, (0,1) B,
    (1,1) A, (1,0) B, (2,2) A complete A's main diagonal; [run] returns -1
    and tells both players, A then B, the winner -1. *)
Theorem end_to_end_first_player_is_cross (extra : nat) :
  side (heap scripted.end_to_end 0%nat) = CROSS
  ∧ side (heap scripted.end_to_end 1%nat) = NOUGHT
  ∧ ∃ w', scripted.run (5 + extra) scripted.end_to_end
          = Some (Ok (Some CROSS), w')
      ∧ starts (trace w') = [0%nat; 1%nat]
      ∧ moves (trace w')
        = [(0%nat, (0, 0)); (1%nat, (0, 1)); (0%nat, (1, 1));
           (1%nat, (1, 0)); (0%nat, (2, 2))]
      ∧ finishes (trace w') = [(0%nat, Some CROSS); (1%nat, Some CROSS)]
      ∧ board w' = [[-1; 1; 0]; [1; -1; 0]; [0; 0; -1]]
      ∧ complete (board w') 3 Diag.
Proof.
  split; [reflexivity|]. split; [reflexivity|].
  eexists. split; [vm_compute; reflexivity|].
  repeat split; vm_compute; reflexivity.
Qed.

(** *** Shuffling across runs *)

(** C6, as stated, fails: with shuffling, the second run notifies B before
    A when the first run's draw swapped them, and A before B when it did
    not. *)
Lemma start_order_counterexample :
  greedy.second_run_starts (λ _, 0%nat) = Some [1%nat; 0%nat]
  ∧ greedy.second_run_starts (λ _, 1%nat) = Some [0%nat; 1%nat]
  ∧ ¬ greedy.starts_unaffected_by_shuffle.
Proof.
  assert (greedy.second_run_starts (λ _, 0%nat) = Some [1%nat; 0%nat]) as H
    by (vm_compute; reflexivity).
  split; [done|]. split; [vm_compute; reflexivity|].
  intros Hclaim. rewrite Hclaim in H. discriminate.
Qed.

(** *** The theorems at concrete matches *)

Lemma winning_move_complete_line_witness :
  square 3 samples.diagonal_o ∧ cells_ok samples.diagonal_o
  ∧ in_bounds 3 (2, 2)
  ∧ ∃ r, winning_move samples.diagonal_o (2, 2) = Ok r
      ∧ (r = true ↔
           (∃ ln, through 3 ln (2, 2) ∧ monochrome samples.diagonal_o 3 ln)).
Proof.
  assert (square 3 samples.diagonal_o) as Hsq by by_compute.
  assert (cells_ok samples.diagonal_o) as Hok by by_compute.
  assert (in_bounds 3 (2, 2)) as Hin by by_compute.
  destruct (winning_move_complete_line 3 samples.diagonal_o (2, 2)
              Hsq Hok Hin) as (r & Hr & _ & Hiff & _).
  split_and!; [done..|]. exists r. by split.
Defined.

Lemma valid_move_iff_empty_cell_witness :
  square 3 samples.diagonal_o ∧ ¬ in_bounds 3 (-1, 5)
  ∧ ((-1, 5) ∉ empty_cells samples.diagonal_o)
  ∧ valid_move samples.diagonal_o (-1, 5) = false.
Proof.
  assert (square 3 samples.diagonal_o) as Hsq by by_compute.
  assert (¬ in_bounds 3 (-1, 5)) as Hout by by_compute.
  destruct (valid_move_iff_empty_cell samples.diagonal_o (-1, 5))
    as (_ & _ & _ & H).
  destruct (H 3%nat Hsq Hout). by split_and!.
Defined.

Lemma board_str_round_trip_witness :
  square 3 samples.diagonal_o ∧ cells_ok samples.diagonal_o
  ∧ parse_board (board_str samples.diagonal_o) = Some samples.diagonal_o.
Proof.
  assert (square 3 samples.diagonal_o) as Hsq by by_compute.
  assert (cells_ok samples.diagonal_o) as Hok by by_compute.
  destruct (board_str_round_trip 3 samples.diagonal_o Hsq Hok) as (H & _).
  by split_and!.
Defined.

Lemma set_players_binds_sides_witness :
  square 3 (board (greedy.game 3 true)) ∧ NoDup [1%nat; 0%nat]
  ∧ ∃ w', set_players [1%nat; 0%nat] (greedy.game 3 true) = Ok w'
      ∧ players w' = [1%nat; 0%nat]
      ∧ Forall2 (λ p s, side (heap w' p) = s) [1%nat; 0%nat] sides
      ∧ ∀ w'',
          tictactoe.after_runs greedy.start greedy.move greedy.finish
            (λ _, 0%nat) w' w'' →
          ∀ q, side (heap w'' q) = side (heap w' q).
Proof.
  assert (square 3 (board (greedy.game 3 true))) as Hsq by by_compute.
  assert (NoDup [1%nat; 0%nat]) as Hnd by by_compute.
  destruct (set_players_binds_sides greedy.start greedy.move greedy.finish
              (λ _, 0%nat) 3 [1%nat; 0%nat] (greedy.game 3 true) Hsq)
    as (_ & Hok & Hspec).
  destruct (Hok eq_refl) as [w' Hset].
  destruct (Hspec w' Hset) as (Hps & Hbind & _ & _ & Hkeep).
  destruct (Hbind Hnd) as [Horder _].
  split; [exact Hsq|]. split; [exact Hnd|]. exists w'.
  split; [exact Hset|]. split; [exact Hps|]. split; [exact Horder|].
  exact Hkeep.
Defined.

Lemma play_terminates_witness :
  (1 ≤ 3)%nat ∧ square 3 (board (greedy.game 3 false))
  ∧ configured (greedy.game 3 false) ∧ (3 * 3 ≤ 9)%nat
  ∧ ∃ r w', greedy.play (λ _, 0%nat) 9 (greedy.game 3 false) = Some (r, w')
      ∧ ∃ t, trace w' = trace (greedy.game 3 false) ++ t
          ∧ (length (moves t) ≤ 3 * 3)%nat.
Proof.
  assert (1 ≤ 3)%nat as H1 by lia.
  assert (square 3 (board (greedy.game 3 false))) as Hsq by by_compute.
  assert (configured (greedy.game 3 false)) as Hcfg by by_compute.
  assert (3 * 3 ≤ 9)%nat as H9 by lia.
  destruct (play_terminates greedy.move (λ _, 0%nat) 3 9
              (greedy.game 3 false) H1 Hsq Hcfg H9)
    as (r & w' & Hplay & _ & Ht & _).
  split; [exact H1|]. split; [exact Hsq|]. split; [exact Hcfg|].
  split; [exact H9|]. exists r, w'. split; [exact Hplay | exact Ht].
Defined.

Lemma illegal_move_aborts_witness :
  square 3 (board (scripted.enter_run scripted.clash))
  ∧ tictactoe.passes scripted.move
      (players (scripted.enter_play (scripted.enter_run scripted.clash))) 0
      (scripted.enter_play (scripted.enter_run scripted.clash))
      1 scripted.clash_after_first
  ∧ cycle_nth
      (players (scripted.enter_play (scripted.enter_run scripted.clash))) 1
    = Some 1%nat
  ∧ ((scripted.move (heap scripted.clash_after_first 1%nat)
                    (board scripted.clash_after_first)).1
     ∉ empty_cells (board scripted.clash_after_first))
  ∧ ∃ w', board w' = [[-1; 0; 0]; [0; 0; 0]; [0; 0; 0]]
      ∧ moves (trace w') = [(0%nat, (0, 0)); (1%nat, (0, 0))]
      ∧ finishes (trace w') = []
      ∧ scripted.run 2 scripted.clash
        = Some (Raise (ValueError "Not a valid move: (0, 0)"), w').
Proof.
  assert (square 3 (board (scripted.enter_run scripted.clash))) as Hsq
    by by_compute.
  assert (tictactoe.passes scripted.move
      (players (scripted.enter_play (scripted.enter_run scripted.clash))) 0
      (scripted.enter_play (scripted.enter_run scripted.clash))
      1 scripted.clash_after_first) as Hpass.
  { eapply (passes_step _ _ 0%nat _ 0%nat);
      [reflexivity | vm_compute; reflexivity | apply passes_here]. }
  assert (cycle_nth
      (players (scripted.enter_play (scripted.enter_run scripted.clash))) 1
    = Some 1%nat) as Hp by reflexivity.
  assert ((scripted.move (heap scripted.clash_after_first 1%nat)
                    (board scripted.clash_after_first)).1
     ∉ empty_cells (board scripted.clash_after_first)) as Hnot by by_compute.
  destruct (illegal_move_aborts scripted.start scripted.move scripted.finish
              (λ _, 0%nat) 3 (scripted.enter_run scripted.clash) 1
              scripted.clash_after_first 1%nat Hsq Hpass Hp Hnot)
    as (w' & Hb & Htr & _ & Hrun).
  split; [exact Hsq|]. split; [exact Hpass|]. split; [exact Hp|].
  split; [exact Hnot|]. exists w'. split_and!.
  - rewrite Hb. vm_compute. reflexivity.
  - rewrite Htr. vm_compute. reflexivity.
  - rewrite Htr. vm_compute. reflexivity.
  - rewrite (Hrun scripted.clash 2%nat eq_refl ltac:(lia)).
    vm_compute. reflexivity.
Defined.

Lemma board_invariant_maintained_witness :
  init greedy.objects [0%nat; 1%nat] 3 true false 0 = Ok (greedy.game 3 true)
  ∧ tictactoe.after_runs greedy.start greedy.move greedy.finish (λ _, 0%nat)
      (greedy.game 3 true) greedy.after_one
  ∧ board_inv 3 (board greedy.after_one)
  ∧ board_inv 3 (board greedy.after_two).
Proof.
  assert (init greedy.objects [0%nat; 1%nat] 3 true false 0
          = Ok (greedy.game 3 true)) as Hinit by reflexivity.
  assert (tictactoe.after_runs greedy.start greedy.move greedy.finish
            (λ _, 0%nat) (greedy.game 3 true) greedy.after_one) as Hruns.
  { eapply (after_run _ _ _ _ _ 9%nat (Ok (Some NOUGHT)));
      [vm_compute; reflexivity | apply after_none]. }
  destruct (board_invariant_maintained greedy.start greedy.move greedy.finish
              (λ _, 0%nat) 3 greedy.objects [0%nat; 1%nat] true false 0
              (greedy.game 3 true) greedy.after_one Hinit Hruns)
    as (Hinv & _ & _ & _ & Hrun).
  split; [exact Hinit|]. split; [exact Hruns|]. split; [exact Hinv|].
  apply (Hrun 9%nat (Ok (Some CROSS)) greedy.after_two).
  vm_compute. reflexivity.
Defined.

Lemma one_by_one_first_mover_wins_witness :
  square 1 (board (greedy.game 1 false)) ∧ configured (greedy.game 1 false)
  ∧ (1 ≤ 1)%nat
  ∧ ∃ r w', greedy.play (λ _, 0%nat) 1 (greedy.game 1 false) = Some (r, w')
      ∧ r ≠ Ok None.
Proof.
  assert (square 1 (board (greedy.game 1 false))) as Hsq by by_compute.
  assert (configured (greedy.game 1 false)) as Hcfg by by_compute.
  assert (1 ≤ 1)%nat as H1 by lia.
  destruct (one_by_one_first_mover_wins greedy.start greedy.move
              greedy.finish (λ _, 0%nat) 1 (greedy.game 1 false)
              Hsq Hcfg H1)
    as (p & r & w' & _ & Hplay & _ & _ & _ & _ & Hno & _).
  split; [exact Hsq|]. split; [exact Hcfg|]. split; [exact H1|].
  exists r, w'. split; [exact Hplay | exact Hno].
Defined.

Lemma start_order_is_collection_order_witness :
  init greedy.objects [0%nat; 1%nat] 3 true false 0 = Ok (greedy.game 3 true)
  ∧ tictactoe.after_runs greedy.start greedy.move greedy.finish (λ _, 0%nat)
      (greedy.game 3 true) greedy.after_one
  ∧ greedy.run (λ _, 0%nat) 9 greedy.after_one
    = Some (Ok (Some CROSS), greedy.after_two)
  ∧ (∃ t, trace greedy.after_two = trace greedy.after_one ++ t
          ∧ starts t = players greedy.after_one)
  ∧ players greedy.after_one ≡ₚ [0%nat; 1%nat]
  ∧ ∀ q, side (heap greedy.after_two q) = side (heap (greedy.game 3 true) q).
Proof.
  assert (init greedy.objects [0%nat; 1%nat] 3 true false 0
          = Ok (greedy.game 3 true)) as Hinit by reflexivity.
  assert (tictactoe.after_runs greedy.start greedy.move greedy.finish
            (λ _, 0%nat) (greedy.game 3 true) greedy.after_one) as Hruns.
  { eapply (after_run _ _ _ _ _ 9%nat (Ok (Some NOUGHT)));
      [vm_compute; reflexivity | apply after_none]. }
  assert (greedy.run (λ _, 0%nat) 9 greedy.after_one
          = Some (Ok (Some CROSS), greedy.after_two)) as Hrun
    by (vm_compute; reflexivity).
  destruct (start_order_is_collection_order greedy.start greedy.move
              greedy.finish (λ _, 0%nat) 3 greedy.objects [0%nat; 1%nat]
              true false 0 (greedy.game 3 true) greedy.after_one 9
              (Ok (Some CROSS)) greedy.after_two Hinit Hruns Hrun)
    as (Hst & _ & Hperm & _ & _ & _ & _ & Hside).
  split; [exact Hinit|]. split; [exact Hruns|]. split; [exact Hrun|].
  split; [exact Hst|]. split; [exact Hperm | exact Hside].
Defined.

End scenarios.

(** ** More about the rules *)

Module rules_more.
Import rules board_spec rules_facts.

(** *** Display helpers *)

Lemma lookup_three (m0 m1 m2 : string) (v : Z) :
  (<[EMPTY := m0]> (<[NOUGHT := m1]> (<[CROSS := m2]> (∅ : gmap Z string))))
    !! v
  = if decide (v = EMPTY) then Some m0
    else if decide (v = NOUGHT) then Some m1
    else if decide (v = CROSS) then Some m2
    else None.
Proof.
  rewrite !lookup_insert, lookup_empty.
  unfold EMPTY, NOUGHT, CROSS. repeat case_decide; subst; done.
Qed.

Lemma token_length (v : Z) : String.length (token v) = 1%nat.
Proof.
  unfold token, __tokens. rewrite lookup_three.
  by repeat case_decide.
Qed.


Lemma length_append (s t : string) :
  String.length (s +:+ t) = (String.length s + String.length t)%nat.
Proof. induction s as [|c s IH]; simpl; [done | by rewrite IH]. Qed.

Lemma length_join (sep : string) (parts : list string) :
  String.length (join sep parts)
  = (sum_list (String.length <$> parts)
     + (length parts - 1) * String.length sep)%nat.
Proof.
  induction parts as [|p rest IH]; [done|].
  destruct rest as [|q rest].
  - simpl. lia.
  - change (join sep (p :: q :: rest))
      with (p +:+ sep +:+ join sep (q :: rest)).
    rewrite !length_append, IH. simpl. lia.
Qed.

Lemma sum_list_const {A : Type} (f : A → nat) (c : nat) (l : list A) :
  Forall (λ x, f x = c) l → sum_list (map f l) = (length l * c)%nat.
Proof.
  induction 1 as [|x l Hx _ IH]; [done|]. simpl. rewrite Hx. by f_equal.
Qed.

Lemma length_row_str (row : list Z) :
  String.length (row_str row) = (2 * length row - 1)%nat.
Proof.
  unfold row_str. rewrite length_join, length_map.
  change (String.length <$> map token row)
    with (map String.length (map token row)).
  rewrite (sum_list_const _ 1), length_map.
  - simpl. lia.
  - apply Forall_map, Forall_true. apply token_length.
Qed.

(** X2. Whatever the cells hold (unknown values included), every row of
    m cells is rendered in 2m - 1 characters, one per cell and one per bar,
    and a board of rows of m cells in one character more per row, less the
    last line feed. *)
Theorem board_str_shape (m : nat) (b : Board) :
  Forall (λ row, length row = m) b →
  Forall (λ row, String.length (row_str row) = (2 * m - 1)%nat) b
  ∧ String.length (board_str b)
    = (length b * (2 * m - 1) + (length b - 1))%nat.
Proof.
  intros Hrows.
  assert (Forall (λ row, String.length (row_str row) = (2 * m - 1)%nat) b)
    as Hlens.
  { eapply Forall_impl; [exact Hrows|]. intros row <-. apply length_row_str. }
  split; [done|]. unfold board_str. rewrite length_join, length_map.
  change (String.length <$> map row_str b)
    with (map String.length (map row_str b)).
  rewrite (sum_list_const _ (2 * m - 1)), length_map.
  - change (String.length newline) with 1%nat. lia.
  - by apply Forall_map.
Qed.

(** *** Full boards and the emptiness scan *)

(** X3. [board_full] answers true exactly when [empty_cells] is empty,
    which is exactly when no coordinate pair at all is a valid move. *)
Theorem board_full_no_valid_move (b : Board) :
  (board_full b = true ↔ empty_cells b = [])
  ∧ (board_full b = true ↔ ∀ m, valid_move b m = false)
  ∧ (board_full b = false ↔ ∃ m, valid_move b m = true).
Proof.
  assert (board_full b = true ↔ ∀ m, valid_move b m = false) as Hall.
  { rewrite board_full_iff. unfold valid_move. split.
    - intros -> m. apply bool_decide_eq_false. apply not_elem_of_nil.
    - intros H. destruct (empty_cells b) as [|m l]; [done|].
      specialize (H m). apply bool_decide_eq_false in H.
      destruct H. apply list_elem_of_here. }
  split; [apply board_full_iff|]. split; [done|].
  rewrite <- not_true_iff_false, Hall. split.
  - intros Hno. destruct (empty_cells b) as [|m l] eqn:E.
    + destruct Hno. intros m. unfold valid_move. rewrite E.
      apply bool_decide_eq_false, not_elem_of_nil.
    + exists m. unfold valid_move. rewrite E.
      apply bool_decide_eq_true, list_elem_of_here.
  - intros [m Hm] H. specialize (H m). congruence.
Qed.

Lemma sorted_nodup {A : Type} (R : relation A) (l : list A) :
  (∀ x, ¬ R x x) → StronglySorted R l → NoDup l.
Proof.
  intros Hirr. induction 1 as [|x l Hl IH Hx]; constructor; [|done].
  intros Hin. rewrite Forall_forall in Hx. by apply (Hirr x), Hx.
Qed.

Lemma nonzero_row_sorted (i j : Z) (row : list Z) :
  StronglySorted row_major_lt (nonzero_row i j row).
Proof.
  revert j. induction row as [|v row IH]; intros j; simpl; [constructor|].
  apply StronglySorted_app_2; [|case_decide; repeat constructor|apply IH].
  intros x1 x2 Hx1 (k & -> & _)%elem_of_nonzero_row.
  case_decide; [|by apply elem_of_nil in Hx1].
  apply list_elem_of_singleton in Hx1 as ->.
  right. simpl. lia.
Qed.

Lemma nonzero_rows_sorted (i : Z) (b : Board) :
  StronglySorted row_major_lt (nonzero_rows i b).
Proof.
  revert i. induction b as [|row b IH]; intros i; simpl; [constructor|].
  apply StronglySorted_app_2; [|apply nonzero_row_sorted|apply IH].
  intros x1 x2 (k1 & -> & _)%elem_of_nonzero_row
               (k & j & r & -> & _)%elem_of_nonzero_rows.
  left. simpl. lia.
Qed.

(** X4. [empty_cells] lists the empty cells in strictly increasing
    row-major order; so no cell is listed twice. *)
Theorem empty_cells_row_major (b : Board) :
  StronglySorted row_major_lt (empty_cells b) ∧ NoDup (empty_cells b).
Proof.
  assert (StronglySorted row_major_lt (empty_cells b)) as Hs
    by apply nonzero_rows_sorted.
  split; [done|]. eapply sorted_nodup; [|exact Hs].
  intros [x y]. unfold row_major_lt. simpl. lia.
Qed.

(** *** The two sides are treated alike *)

Lemma np_sum_opponent (l : list Z) : np_sum (map opponent l) = - np_sum l.
Proof.
  unfold np_sum, opponent. induction l as [|v l IH]; simpl; [done|].
  rewrite IH. lia.
Qed.

Lemma abs_sum_opponent (l : list Z) :
  Z.abs (np_sum (map opponent l)) = Z.abs (np_sum l).
Proof. by rewrite np_sum_opponent, Z.abs_opp. Qed.

Lemma np_row_flip (b : Board) (x : Z) :
  np_row (flip_sides b) x
  = match np_row b x with Ok r => Ok (map opponent r) | Raise e => Raise e end.
Proof.
  unfold np_row, flip_sides, shape0. rewrite length_map.
  destruct (np_index (length b) x) as [i|e]; simpl; [|done].
  change (map (map opponent) b) with (map opponent <$> b).
  rewrite list_lookup_fmap. by destruct (b !! i).
Qed.

Lemma column_flip (b : Board) (j : nat) :
  omap (λ row : list Z, row !! j) (flip_sides b)
  = map opponent (omap (λ row : list Z, row !! j) b).
Proof.
  unfold flip_sides. induction b as [|row b IH]; [done|]. cbn.
  change (map opponent row) with (opponent <$> row).
  rewrite list_lookup_fmap. destruct (row !! j); cbn; by rewrite IH.
Qed.

Lemma np_col_flip (b : Board) (y : Z) :
  np_col (flip_sides b) y
  = match np_col b y with Ok c => Ok (map opponent c) | Raise e => Raise e end.
Proof.
  unfold np_col.
  assert (shape1 (flip_sides b) = shape1 b) as ->.
  { destruct b; [done|]. simpl. by rewrite length_map. }
  destruct (np_index (shape1 b) y) as [j|e]; simpl; [|done].
  by rewrite column_flip.
Qed.

Lemma diagonal_flip (k : nat) (b : Board) :
  diagonal_from k (flip_sides b) = map opponent (diagonal_from k b).
Proof.
  unfold flip_sides. revert k. induction b as [|row b IH]; intros k; [done|].
  simpl. change (map opponent row) with (opponent <$> row).
  rewrite list_lookup_fmap. destruct (row !! k); simpl; [|done].
  by rewrite IH.
Qed.

Lemma fliplr_flip (b : Board) :
  np_fliplr (flip_sides b) = flip_sides (np_fliplr b).
Proof.
  unfold np_fliplr, flip_sides. induction b as [|row b IH]; [done|].
  simpl. rewrite IH. f_equal.
  change (map opponent ?l) with (opponent <$> l). by rewrite fmap_reverse.
Qed.

Lemma nonzero_row_flip (i j : Z) (row : list Z) :
  nonzero_row i j (map opponent row) = nonzero_row i j row.
Proof.
  revert j. induction row as [|v row IH]; intros j; [done|]. simpl.
  rewrite IH. f_equal. unfold opponent, EMPTY.
  repeat case_decide; try done; lia.
Qed.

Lemma empty_cells_flip (b : Board) :
  empty_cells (flip_sides b) = empty_cells b.
Proof.
  unfold empty_cells, flip_sides. generalize 0.
  induction b as [|row b IH]; intros i; [done|]. simpl.
  by rewrite nonzero_row_flip, IH.
Qed.

(** X5. The rules do not tell the sides apart: [opponent] swaps the two
    sides and is its own inverse, and on the board with every cell handed
    to the opponent the empty cells, the valid moves, fullness and the
    result of [winning_move] (exceptions included) are what they were. *)
Theorem rules_are_side_symmetric (b : Board) (m : Move) (s : Z) :
  opponent (opponent s) = s
  ∧ (s ∈ sides → opponent s ∈ sides ∧ opponent s ≠ s)
  ∧ empty_cells (flip_sides b) = empty_cells b
  ∧ valid_move (flip_sides b) m = valid_move b m
  ∧ board_full (flip_sides b) = board_full b
  ∧ winning_move (flip_sides b) m = winning_move b m.
Proof.
  split; [unfold opponent; lia|]. split.
  { unfold sides, opponent, CROSS, NOUGHT.
    intros [-> | [-> | []%elem_of_nil]%elem_of_cons]%elem_of_cons.
    - split; [apply list_elem_of_further, list_elem_of_here | done].
    - split; [apply list_elem_of_here | done]. }
  split; [apply empty_cells_flip|].
  split; [unfold valid_move; by rewrite empty_cells_flip|]. split.
  { apply eq_true_iff_eq. by rewrite !board_full_iff, empty_cells_flip. }
  destruct m as [x y]. unfold winning_move.
  assert (shape0 (flip_sides b) = shape0 b) as ->
    by (unfold shape0, flip_sides; apply length_map).
  rewrite np_row_flip. destruct (np_row b x) as [row|e]; simpl; [|done].
  rewrite abs_sum_opponent.
  destruct (decide (Z.abs (np_sum row) = Z.of_nat (shape0 b))); [done|].
  rewrite np_col_flip. destruct (np_col b y) as [col|e]; simpl; [|done].
  rewrite abs_sum_opponent, fliplr_flip.
  unfold np_diagonal. rewrite !diagonal_flip, !abs_sum_opponent. done.
Qed.

(** *** Indices outside the board *)

Lemma np_index_wraps (n : nat) (i : Z) :
  (wraps n i → ∃ k, np_index n i = Ok k ∧ (k < n)%nat)
  ∧ (¬ wraps n i → np_index n i = Raise IndexError).
Proof.
  unfold wraps, np_index. split.
  - intros Hi. case_decide; [eexists; split; [done | lia]|].
    rewrite decide_True by lia. eexists. split; [done | lia].
  - intros Hi. rewrite !decide_False by lia. done.
Qed.

Lemma np_row_wraps (n : nat) (b : Board) (x : Z) :
  square n b →
  (wraps n x → ∃ row, np_row b x = Ok row)
  ∧ (¬ wraps n x → np_row b x = Raise IndexError).
Proof.
  intros [Hlen _]. unfold np_row, shape0. rewrite Hlen.
  destruct (np_index_wraps n x) as [Hin Hout]. split.
  - intros (k & -> & Hk)%Hin. simpl.
    destruct (lookup_lt_is_Some_2 b k) as [row ->]; [lia | eauto].
  - intros ->%Hout. done.
Qed.

Lemma np_col_wraps (n : nat) (b : Board) (y : Z) :
  square n b → (0 < n)%nat →
  (wraps n y → ∃ col, np_col b y = Ok col)
  ∧ (¬ wraps n y → np_col b y = Raise IndexError).
Proof.
  intros Hsq Hn. unfold np_col. rewrite (shape1_square n) by done.
  destruct (np_index_wraps n y) as [Hin Hout]. split.
  - intros (k & -> & Hk)%Hin. simpl. eauto.
  - intros ->%Hout. done.
Qed.

(** X6. On an n x n board [winning_move] raises [IndexError] exactly when
    the row index is outside [-n, n), or the column index is and the row
    read (possibly through a wrapped, negative index) is not complete: a
    complete row is answered before the column is looked at.  It raises
    nothing else, and answers whenever both indices are within [-n, n). *)
Theorem winning_move_index_error (n : nat) (b : Board) (x y : Z) :
  square n b →
  (winning_move b (x, y) = Raise IndexError ↔
     ¬ wraps n x
     ∨ (¬ wraps n y
        ∧ ∃ row, np_row b x = Ok row ∧ Z.abs (np_sum row) ≠ Z.of_nat n))
  ∧ (∀ msg, winning_move b (x, y) ≠ Raise (ValueError msg))
  ∧ (wraps n x → wraps n y → ∃ r, winning_move b (x, y) = Ok r).
Proof.
  intros Hsq. destruct (np_row_wraps n b x Hsq) as [Hrin Hrout].
  assert (shape0 b = n) as Hshape by apply Hsq.
  destruct (decide (wraps n x)) as [Hx | Hx].
  - destruct (Hrin Hx) as [row Hrow].
    assert (0 < n)%nat as Hn by (unfold wraps in Hx; lia).
    destruct (np_col_wraps n b y Hsq Hn) as [Hcin Hcout].
    unfold winning_move. rewrite Hrow, Hshape. simpl.
    destruct (decide (Z.abs (np_sum row) = Z.of_nat n)) as [Hfull | Hfull].
    { split_and!; [|done|eauto]. split; [done|].
      intros [? | (_ & row' & [= <-] & ?)]; done. }
    destruct (decide (wraps n y)) as [Hy | Hy].
    + destruct (Hcin Hy) as [col ->]. simpl.
      split_and!.
      * split; [by repeat case_decide|]. intros [? | [? _]]; done.
      * intros msg. by repeat case_decide.
      * intros _ _. repeat case_decide; eauto.
    + rewrite (Hcout Hy). simpl. split_and!; [|done|done].
      split; [|done]. intros _. right. eauto.
  - unfold winning_move. rewrite (Hrout Hx). simpl.
    split_and!; [|done|done]. split; [auto | done].
Qed.

(** *** The board after the reset *)

Lemma fill_square (n : nat) (v : Z) (b : Board) :
  square n b → tictactoe.fill v b = replicate n (replicate n v).
Proof.
  intros [Hlen Hrows]. rewrite <- Hlen at 1. clear Hlen.
  unfold tictactoe.fill.
  induction Hrows as [|row b Hrow _ IH]; [done|]. simpl. rewrite IH.
  f_equal. rewrite <- Hrow. clear.
  induction row as [|u row IH]; [done|]. simpl. by f_equal.
Qed.

Lemma nonzero_row_zeros (i j : Z) (m : nat) :
  length (nonzero_row i j (replicate m EMPTY)) = m.
Proof.
  revert j. induction m as [|m IH]; intros j; [done|]. simpl.
  by rewrite IH.
Qed.

Lemma nonzero_rows_zeros (i : Z) (k m : nat) :
  length (nonzero_rows i (replicate k (replicate m EMPTY))) = (k * m)%nat.
Proof.
  revert i. induction k as [|k IH]; intros i; [done|]. simpl.
  by rewrite length_app, nonzero_row_zeros, IH.
Qed.

(** X7. What the reset of [run] leaves: on the n x n board filled with
    EMPTY a coordinate pair is a valid move exactly when it is within the
    bounds, all n² cells are listed as empty, and the board is full only
    when n = 0. *)
Theorem reset_opens_every_cell (n : nat) (b : Board) :
  square n b →
  (∀ m, valid_move (tictactoe.fill EMPTY b) m = true ↔ in_bounds n m)
  ∧ length (empty_cells (tictactoe.fill EMPTY b)) = (n * n)%nat
  ∧ (board_full (tictactoe.fill EMPTY b) = true ↔ n = 0%nat).
Proof.
  intros Hsq. rewrite (fill_square n _ _ Hsq).
  assert (length (empty_cells (replicate n (replicate n EMPTY)))
          = (n * n)%nat) as Hlen by apply nonzero_rows_zeros.
  split; [|split; [done|]].
  - intros m. unfold valid_move. rewrite bool_decide_eq_true.
    rewrite elem_of_empty_cells. unfold position, in_bounds, cell. split.
    + intros ([i j] & Hp & Hc). case_decide; [|done].
      inversion Hp; subst; clear Hp. simpl in Hc.
      destruct (replicate n (replicate n EMPTY) !! Z.to_nat m.1)
        as [row|] eqn:Hrow; [|done].
      apply lookup_replicate in Hrow as [-> Hi]. simpl in Hc.
      apply lookup_replicate in Hc as [_ Hj]. lia.
    + intros [Hx Hy]. rewrite decide_True by lia. eexists. split; [done|].
      simpl. rewrite (lookup_replicate_2 _ _ (Z.to_nat m.1)) by lia.
      simpl. apply lookup_replicate_2. lia.
  - rewrite board_full_iff. split.
    + intros E. rewrite E in Hlen. simpl in Hlen. nia.
    + intros ->. done.
Qed.

End rules_more.



(** ** More about the match runner *)

Module runner_more.
Import rules board_spec rules_facts tictactoe runner_facts rules_more.

Section More.

Context {PState : Type}.
Variable player_start : PlayerObj PState → PState.
Variable player_move : PlayerObj PState → Board → Move * PState.
Variable player_finish : PlayerObj PState → option Z → PState.
Variable entropy : nat → nat.

Local Abbreviation request := (tictactoe.request player_move).
Local Abbreviation turn := (tictactoe.turn player_move).
Local Abbreviation play_loop := (tictactoe.play_loop player_move).
Local Abbreviation passes := (tictactoe.passes player_move).
Local Abbreviation enter_play := (tictactoe.enter_play entropy).
Local Abbreviation play := (tictactoe.play player_move entropy).
Local Abbreviation notify_start := (tictactoe.notify_start player_start).
Local Abbreviation notify_finish := (tictactoe.notify_finish player_finish).
Local Abbreviation enter_run := (tictactoe.enter_run player_start).
Local Abbreviation run :=
  (tictactoe.run player_start player_move player_finish entropy).

Implicit Types (w : World PState) (p : ref) (ps : list ref).

(** *** set_players, once more *)

(** X8. [set_players] on a list of two writes the attribute [side] and
    nothing else: the second entry ends with NOUGHT; the first with CROSS,
    unless both entries are one and the same object, which then holds
    NOUGHT; every object keeps its class and its private state, objects
    outside the list are untouched, and board and log stay as they were. *)
Theorem set_players_writes_sides_only (a b : ref) w :
  ∃ w', set_players [a; b] w = Ok w'
    ∧ side (heap w' b) = NOUGHT
    ∧ side (heap w' a) = (if decide (a = b) then NOUGHT else CROSS)
    ∧ (∀ q, cls (heap w' q) = cls (heap w q)
            ∧ pstate (heap w' q) = pstate (heap w q))
    ∧ (∀ q, q ≠ a → q ≠ b → heap w' q = heap w q)
    ∧ board w' = board w ∧ trace w' = trace w
    ∧ logger w' = logger w ∧ shuffle w' = shuffle w.
Proof.
  eexists. split; [reflexivity|]. simpl.
  unfold assign_sides, store. simpl. split_and!; try done.
  - by rewrite decide_True.
  - destruct (decide (a = b)) as [-> | Hab]; [done|].
    by rewrite decide_True.
  - intros q. repeat case_decide; subst; done.
  - intros q Ha Hb. by rewrite !decide_False.
Qed.

(** *** What [run] does with the board it finds *)

(** X9. [run] starts from the reset board: whatever n x n board an earlier
    match (or anything else) left in the runner, the run goes the same
    way, to the same result and the same final state. *)
Theorem run_forgets_previous_board (n : nat) (b : Board) w (fuel : nat) :
  square n b → square n (board w) →
  run fuel (with_board b w) = run fuel w.
Proof.
  intros Hb Hw. unfold tictactoe.run, tictactoe.enter_run.
  assert (with_board (fill EMPTY (board (with_board b w))) (with_board b w)
          = with_board (fill EMPTY (board w)) w) as ->; [|done].
  unfold with_board. simpl.
  by rewrite (fill_square n _ _ Hb), (fill_square n _ _ Hw).
Qed.

(** X10. [play] called on a full board (as after a drawn match, without
    the reset of [run]) asks the first player once and raises the
    illegal-move error whatever the answer; the board is not touched. *)
Theorem play_on_full_board_raises w (fuel : nat) :
  board_full (board w) = true → players w ≠ [] → (0 < fuel)%nat →
  ∃ p w',
    cycle_nth (players (enter_play w)) 0 = Some p
    ∧ play fuel w
      = Some (Raise (ValueError
                (invalid_msg (player_move (heap w p) (board w)).1)), w')
    ∧ board w' = board w
    ∧ trace w' = trace w
        ++ EvMove p (board w) (player_move (heap w p) (board w)).1
           :: (if logger w then [EvLog Fatal "Invalid move"] else []).
Proof.
  intros Hfull Hne Hfuel.
  destruct (enter_play_spec entropy w) as (Eh & Eb & Elg & _ & Etr & Eperm & _).
  unfold tictactoe.play. set (w0 := enter_play w) in *.
  destruct (players w0) as [|p ps] eqn:Hps.
  { apply Permutation_nil_l in Eperm. done. }
  exists p. destruct fuel as [|fuel]; [lia|]. simpl.
  assert (cycle_nth (p :: ps) 0 = Some p) as Hp.
  { unfold cycle_nth. by rewrite Nat.Div0.mod_0_l. }
  rewrite Hp.
  destruct (turn_invalid player_move p w0) as (w' & Hturn & Hb & Htr).
  { rewrite Eb. apply bool_decide_eq_false.
    apply board_full_iff in Hfull. rewrite Hfull. apply not_elem_of_nil. }
  rewrite Hturn. rewrite Eh, Eb in *. exists w'.
  split; [done|]. split; [done|]. split; [done|].
  by rewrite Htr, Etr, Elg.
Qed.

(** *** What a move writes *)

Lemma cell_insert (b : Board) (i j : nat) (row : list Z) (v : Z)
    (ij : nat * nat) :
  b !! i = Some row → (j < length row)%nat →
  cell (<[i := <[j := v]> row]> b) ij
  = if decide (ij = (i, j)) then Some v else cell b ij.
Proof.
  intros Hrow Hj. destruct ij as [i' j']. unfold cell. simpl.
  pose proof (lookup_lt_Some _ _ _ Hrow) as Hi.
  destruct (decide (i' = i)) as [-> | Hi'].
  - rewrite list_lookup_insert_eq by done. simpl.
    destruct (decide (j' = j)) as [-> | Hj'].
    + rewrite decide_True by done. by apply list_lookup_insert_eq.
    + rewrite decide_False by (intros [=]; done).
      rewrite list_lookup_insert_ne by done. by rewrite Hrow.
  - rewrite decide_False by (intros [=]; done).
    by rewrite list_lookup_insert_ne.
Qed.

Lemma board_log (lv : loglevel) (msg : string) (w : World PState) :
  board (log lv msg w) = board w.
Proof. unfold log. by destruct (logger w). Qed.

(** A valid move: the board it leaves and the three ways the pass ends. *)
Lemma turn_valid (n : nat) p w :
  square n (board w) →
  valid_move (board w) (player_move (heap w p) (board w)).1 = true →
  ∃ (i j : nat) (row : list Z),
    (player_move (heap w p) (board w)).1 = (Z.of_nat i, Z.of_nat j)
    ∧ board w !! i = Some row ∧ row !! j = Some EMPTY
    ∧ board (final_of (turn p w))
      = <[i := <[j := side (heap w p)]> row]> (board w)
    ∧ ((turn p w = inl (Ok (Some (side (heap w p))), final_of (turn p w))
        ∧ winning_move (board (final_of (turn p w)))
            (player_move (heap w p) (board w)).1 = Ok true)
       ∨ (turn p w = inl (Ok None, final_of (turn p w))
          ∧ winning_move (board (final_of (turn p w)))
              (player_move (heap w p) (board w)).1 = Ok false
          ∧ board_full (board (final_of (turn p w))) = true)
       ∨ (turn p w = inr (final_of (turn p w))
          ∧ winning_move (board (final_of (turn p w)))
              (player_move (heap w p) (board w)).1 = Ok false
          ∧ board_full (board (final_of (turn p w))) = false)).
Proof.
  intros Hsq Hv. destruct (request p w) as [mv w1] eqn:Hreq.
  destruct (request_spec _ _ _ _ _ Hreq) as (_ & _ & _ & _ & _ & _ & _ & Emv).
  rewrite <- Emv in *.
  destruct (turn_spec player_move n p w mv w1 Hsq Hreq)
    as [[Hno _] | (i & j & row & Hmv & Hrow & Hcell & Hcases)];
    [congruence|].
  exists i, j, row. split; [done|]. split; [done|]. split; [done|].
  destruct Hcases as [[Ht Hw] | [[Ht [Hw Hf]] | [Ht [Hw Hf]]]];
    rewrite Ht; cbn [final_of]; rewrite ?board_log; cbn [board with_board];
    auto 6.
Qed.

(** X11. One pass of the loop changes at most one cell.  After a valid
    answer the cell it names, empty until then, holds the mover's side and
    every other cell holds what it held; after an invalid answer the board
    is the same. *)
Theorem turn_writes_one_cell (n : nat) p w :
  square n (board w) →
  (valid_move (board w) (player_move (heap w p) (board w)).1 = false →
   board (final_of (turn p w)) = board w)
  ∧ (valid_move (board w) (player_move (heap w p) (board w)).1 = true →
     ∃ ij, position (player_move (heap w p) (board w)).1 = Some ij
       ∧ cell (board w) ij = Some EMPTY
       ∧ cell (board (final_of (turn p w))) ij = Some (side (heap w p))
       ∧ ∀ ij', ij' ≠ ij →
           cell (board (final_of (turn p w))) ij' = cell (board w) ij').
Proof.
  intros Hsq. split.
  - intros Hv. destruct (turn_invalid player_move p w Hv) as (w' & -> & Hb & _).
    done.
  - intros Hv.
    destruct (turn_valid n p w Hsq Hv)
      as (i & j & row & Hmv & Hrow & Hcell & Hb & _).
    pose proof (lookup_lt_Some _ _ _ Hcell) as Hj.
    exists (i, j). rewrite Hmv, Hb. split_and!.
    + unfold position. simpl. rewrite decide_True by lia.
      by rewrite !Nat2Z.id.
    + unfold cell. simpl. by rewrite Hrow.
    + rewrite (cell_insert _ _ _ _ _ _ Hrow Hj). by rewrite decide_True.
    + intros ij' Hne. rewrite (cell_insert _ _ _ _ _ _ Hrow Hj).
      by rewrite decide_False.
Qed.

Lemma turn_fills (n : nat) p w (ij : nat * nat) :
  square n (board w) →
  cell (board (final_of (turn p w))) ij = cell (board w) ij
  ∨ (cell (board w) ij = Some EMPTY
     ∧ cell (board (final_of (turn p w))) ij = Some (side (heap w p))).
Proof.
  intros Hsq.
  destruct (valid_move (board w) (player_move (heap w p) (board w)).1)
    eqn:Hv.
  - destruct (turn_valid n p w Hsq Hv)
      as (i & j & row & Hmv & Hrow & Hcell & Hb & _).
    pose proof (lookup_lt_Some _ _ _ Hcell) as Hj.
    rewrite Hb, (cell_insert _ _ _ _ _ _ Hrow Hj).
    case_decide as E; [|by left]. right. split; [|done].
    subst ij. unfold cell. simpl. by rewrite Hrow.
  - destruct (turn_invalid player_move p w Hv) as (w' & -> & Hb & _).
    left. simpl. by rewrite Hb.
Qed.

Lemma passes_fill (n : nat) ps k w k' w' (ij : nat * nat) :
  passes ps k w k' w' → square n (board w) →
  cell (board w') ij = cell (board w) ij
  ∨ (cell (board w) ij = Some EMPTY
     ∧ ∃ p, p ∈ ps ∧ cell (board w') ij = Some (side (heap w p))).
Proof.
  induction 1 as [k w | k w p w1 k' w' Hp Ht Hpass IH]; intros Hsq;
    [by left|].
  pose proof (turn_post player_move n p w Hsq) as Hpost.
  pose proof (turn_fills n p w ij Hsq) as Hstep.
  rewrite Ht in Hpost, Hstep. simpl in Hpost, Hstep.
  destruct Hpost as (Hsq1 & _ & _ & _ & _ & Hside & _).
  pose proof (cycle_nth_elem _ _ _ Hp) as Hin.
  destruct (IH Hsq1) as [E | (E & q & Hq & E')].
  - rewrite E. destruct Hstep as [-> | [E0 E1]]; [by left|].
    right. eauto.
  - right. rewrite Hside in E'.
    destruct Hstep as [E0 | [E0 _]]; [rewrite <- E0|]; eauto.
Qed.

(** X12. [play] only ever fills empty cells: a cell that differs after the
    play was empty before and now holds the side of one of the players;
    so a cell once taken keeps its value to the end of the play. *)
Theorem play_only_fills_empty_cells (n fuel : nat) w r w' :
  square n (board w) → play fuel w = Some (r, w') →
  ∀ ij,
    (cell (board w') ij = cell (board w) ij
     ∨ (cell (board w) ij = Some EMPTY
        ∧ ∃ p, p ∈ players w ∧ cell (board w') ij = Some (side (heap w p))))
    ∧ (∀ v, cell (board w) ij = Some v → v ≠ EMPTY →
         cell (board w') ij = Some v).
Proof.
  intros Hsq Hplay ij.
  assert (cell (board w') ij = cell (board w) ij
     ∨ (cell (board w) ij = Some EMPTY
        ∧ ∃ p, p ∈ players w ∧ cell (board w') ij = Some (side (heap w p))))
    as Hfill.
  { unfold tictactoe.play in Hplay.
    destruct (enter_play_spec entropy w) as (Eh & Eb & _ & _ & _ & Eperm & _).
    set (w0 := enter_play w) in *.
    assert (square n (board w0)) as Hsq0 by by rewrite Eb.
    apply play_loop_passes in Hplay
      as [(_ & _ & ->) | (k & wk & p & Hpass & Hp & Hturn & _)].
    { left. by rewrite Eb. }
    destruct (passes_post player_move n _ _ _ _ _ Hpass Hsq0)
      as (_ & Hsqk & _ & _ & _ & _ & Hside & _).
    pose proof (turn_fills n p wk ij Hsqk) as Hlast.
    rewrite Hturn in Hlast. simpl in Hlast.
    pose proof (cycle_nth_elem _ _ _ Hp) as Hin.
    rewrite Eperm in Hin. rewrite Hside, Eh in Hlast.
    destruct (passes_fill n _ _ _ _ _ ij Hpass Hsq0)
      as [E | (E & q & Hq & E')].
    - rewrite E, Eb in Hlast. destruct Hlast as [-> | [E0 E1]]; [by left|].
      right. eauto.
    - right. rewrite Eb in E. rewrite Eh in E'. rewrite Eperm in Hq.
      destruct Hlast as [E0 | [E0 E1]]; [rewrite E0|]; eauto. }
  split; [done|]. intros v Hv Hne.
  destruct Hfill as [-> | [E _]]; [done | congruence].
Qed.

(** *** Whose turn it is *)

Lemma moves_app (t1 t2 : list event) : moves (t1 ++ t2) = moves t1 ++ moves t2.
Proof. unfold moves. apply omap_app. Qed.

Lemma moves_logs (logs : list event) : Forall is_log logs → moves logs = [].
Proof. intros H. by destruct (logs_silent logs H). Qed.

Lemma passes_movers (n : nat) ps k w k' w' :
  passes ps k w k' w' → square n (board w) →
  ∃ t, trace w' = trace w ++ t ∧ length (moves t) = (k' - k)%nat
    ∧ ∀ i q mv, moves t !! i = Some (q, mv) → cycle_nth ps (k + i) = Some q.
Proof.
  induction 1 as [k w | k w p w1 k' w' Hp Ht Hpass IH]; intros Hsq.
  - exists []. rewrite app_nil_r, Nat.sub_diag. done.
  - pose proof (turn_post player_move n p w Hsq) as Hpost.
    rewrite Ht in Hpost. simpl in Hpost.
    destruct Hpost as (Hsq1 & _ & _ & _ & _ & _ & _ & mv & logs & Htr & Hlogs & _).
    destruct (IH Hsq1) as (t & Htr' & Hlen & Hwho).
    pose proof Hpass as Hle. apply passes_le in Hle.
    exists (EvMove p (board w) mv :: logs ++ t).
    assert (moves (EvMove p (board w) mv :: logs ++ t) = (p, mv) :: moves t)
      as Hmoves.
    { change (EvMove p (board w) mv :: logs ++ t)
        with ([EvMove p (board w) mv] ++ logs ++ t).
      rewrite !moves_app, (moves_logs logs Hlogs). done. }
    rewrite Hmoves. split_and!.
    + rewrite Htr', Htr, <- (assoc_L (++)). done.
    + simpl. lia.
    + intros [|i] q mv' Hi; simpl in Hi.
      * injection Hi as <- <-. by rewrite Nat.add_0_r.
      * replace (k + S i)%nat with (S k + i)%nat by lia. by eapply Hwho.
Qed.

(** How a play that returns or raises got there: the passes that went on,
    the last pass, and the log of events they left. *)
Lemma play_shape (n fuel : nat) w r w' :
  square n (board w) → play fuel w = Some (r, w') → players w ≠ [] →
  ∃ k wk p t mv logs,
    passes (players (enter_play w)) 0 (enter_play w) k wk
    ∧ cycle_nth (players (enter_play w)) k = Some p
    ∧ turn p wk = inl (r, w')
    ∧ square n (board wk)
    ∧ (∀ q, side (heap wk q) = side (heap w q))
    ∧ mv = (player_move (heap wk p) (board wk)).1
    ∧ trace w' = trace w ++ t ++ EvMove p (board wk) mv :: logs
    ∧ Forall is_log logs
    ∧ length (moves t) = k
    ∧ moves (t ++ EvMove p (board wk) mv :: logs) = moves t ++ [(p, mv)]
    ∧ ∀ i q m, moves t !! i = Some (q, m) →
        cycle_nth (players (enter_play w)) i = Some q.
Proof.
  intros Hsq Hplay Hne. unfold tictactoe.play in Hplay.
  destruct (enter_play_spec entropy w) as (Eh & Eb & _ & _ & Etr & Eperm & _).
  set (w0 := enter_play w) in *.
  assert (square n (board w0)) as Hsq0 by by rewrite Eb.
  apply play_loop_passes in Hplay
    as [(Hnil & _) | (k & wk & p & Hpass & Hp & Hturn & _)].
  { rewrite Hnil in Eperm. by apply Permutation_nil_l in Eperm. }
  destruct (passes_post player_move n _ _ _ _ _ Hpass Hsq0)
    as (_ & Hsqk & _ & _ & _ & _ & Hside & _).
  destruct (passes_movers n _ _ _ _ _ Hpass Hsq0) as (t & Htr & Hlen & Hwho).
  pose proof (turn_post player_move n p wk Hsqk) as Hpost.
  rewrite Hturn in Hpost. simpl in Hpost.
  destruct Hpost as (_ & _ & _ & _ & _ & _ & _ & mv & logs & Htr' & Hlogs & Hmv).
  exists k, wk, p, t, mv, logs. split_and!; try done.
  - intros q. by rewrite Hside, Eh.
  - by rewrite Htr', Htr, Etr, <- (assoc_L (++)).
  - lia.
  - change (EvMove p (board wk) mv :: logs)
      with ([EvMove p (board wk) mv] ++ logs).
    rewrite !moves_app, (moves_logs logs Hlogs), app_nil_r. done.
Qed.

(** X13. The players move in turn, in the order of the players list as the
    play leaves it: the i-th move request of a play (counting from 0) goes
    to the player at index i mod (number of players).  That list is the
    one the runner had before, reordered if [shuffle] is set and the same
    if it is not; with a player on the list at least one move is
    requested. *)
Theorem play_alternates (n fuel : nat) w r w' :
  square n (board w) → play fuel w = Some (r, w') →
  players w' ≡ₚ players w
  ∧ (shuffle w = false → players w' = players w)
  ∧ ∃ t, trace w' = trace w ++ t
      ∧ (players w ≠ [] → moves t ≠ [])
      ∧ ∀ i q mv, moves t !! i = Some (q, mv) →
          players w' !! (i `mod` length (players w'))%nat = Some q.
Proof.
  intros Hsq Hplay.
  destruct (play_post player_move entropy n fuel w r w' Hsq Hplay)
    as (_ & Hps & _).
  destruct (enter_play_spec entropy w) as (_ & _ & _ & _ & _ & Eperm & Eoff).
  split; [by rewrite Hps|]. split; [intros Hoff; by rewrite Hps, Eoff|].
  destruct (decide (players w = [])) as [Hnil | Hne].
  - unfold tictactoe.play in Hplay.
    assert (players (enter_play w) = []) as Hnil'.
    { apply Permutation_nil_r. by rewrite Eperm, Hnil. }
    rewrite Hnil' in Hplay. destruct fuel as [|fuel]; [done|].
    simpl in Hplay. injection Hplay as _ <-.
    destruct (enter_play_spec entropy w) as (_ & _ & _ & _ & Etr & _).
    exists []. rewrite app_nil_r. split; [done|]. split; [done|].
    intros i q mv Hi. done.
  - destruct (play_shape n fuel w r w' Hsq Hplay Hne)
      as (k & wk & p & t & mv & logs & _ & Hp & _ & _ & _ & _ & Htr & _
          & Hlen & Hmoves & Hwho).
    exists (t ++ EvMove p (board wk) mv :: logs). split; [done|].
    rewrite Hmoves. split.
    { intros _ E. by apply app_eq_nil in E as [_ E]. }
    intros i q m Hi. rewrite Hps. fold (cycle_nth (players (enter_play w)) i).
    destruct (decide (i < length (moves t))%nat) as [Hlt | Hge].
    + rewrite lookup_app_l in Hi by done. by eapply Hwho.
    + rewrite lookup_app_r in Hi by lia.
      destruct (i - length (moves t))%nat as [|j] eqn:Ej; [|done].
      simpl in Hi. injection Hi as <- <-.
      replace i with k by lia. done.
Qed.

(** *** What the result says *)

(** X14. The result of [play] is decided by the last move requested.  A
    side is returned only as the side of the player who made that move,
    and the move completes a line on the final board; [None] is returned
    only when the move completes no line and the final board is full; the
    error names the move, which is not valid on the board left behind. *)
Theorem play_result_is_last_move (n fuel : nat) w r w' :
  square n (board w) → play fuel w = Some (r, w') → players w ≠ [] →
  ∃ t p mv,
    trace w' = trace w ++ t ∧ last (moves t) = Some (p, mv)
    ∧ match r with
      | Ok (Some s) =>
          s = side (heap w p) ∧ winning_move (board w') mv = Ok true
      | Ok None =>
          winning_move (board w') mv = Ok false
          ∧ board_full (board w') = true
      | Raise e =>
          e = ValueError (invalid_msg mv)
          ∧ valid_move (board w') mv = false
      end.
Proof.
  intros Hsq Hplay Hne.
  destruct (play_shape n fuel w r w' Hsq Hplay Hne)
    as (k & wk & p & t & mv & logs & _ & _ & Hturn & Hsqk & Hside & Hmv
        & Htr & _ & _ & Hmoves & _).
  exists (t ++ EvMove p (board wk) mv :: logs), p, mv.
  split; [done|]. split; [by rewrite Hmoves, last_snoc|].
  destruct (valid_move (board wk) (player_move (heap wk p) (board wk)).1)
    eqn:Hv.
  - destruct (turn_valid n p wk Hsqk Hv)
      as (_ & _ & _ & _ & _ & _ & _ & Hcases).
    rewrite Hturn in Hcases. simpl in Hcases. rewrite <- Hmv in Hcases.
    destruct Hcases as [[[= ->] Hw] | [[[= ->] [Hw Hf]] | [[=] _]]].
    + by rewrite <- Hside.
    + done.
  - destruct (turn_invalid player_move p wk Hv) as (w'' & Ht & Hb & _).
    rewrite Hturn in Ht. injection Ht as -> ->.
    rewrite Hb, Hmv. done.
Qed.

Lemma moves_starts (l : list ref) : moves (EvStart <$> l) = [].
Proof. by induction l. Qed.

Lemma moves_finishes (r : option Z) (l : list ref) :
  moves ((λ p, EvFinish p r) <$> l) = [].
Proof. by induction l. Qed.

Lemma finishes_app (t1 t2 : list event) :
  finishes (t1 ++ t2) = finishes t1 ++ finishes t2.
Proof. unfold finishes. apply omap_app. Qed.

Lemma finishes_starts (l : list ref) : finishes (EvStart <$> l) = [].
Proof. by induction l. Qed.

Lemma finishes_of_finishes (r : option Z) (l : list ref) :
  finishes ((λ p, EvFinish p r) <$> l) = (λ p, (p, r)) <$> l.
Proof.
  induction l as [|p l IH]; [done|].
  change (finishes ((λ p, EvFinish p r) <$> p :: l))
    with ((p, r) :: finishes ((λ p, EvFinish p r) <$> l)).
  by rewrite IH.
Qed.

(** X15. The notifications of a run.  What [run] adds to the log is: one
    [start] for each player, in the order of the players list at that
    point; then the move requests of the play (no start or finish among
    them); then, if the play returned, one [finish] for each player with
    the result of the run, in the order of the list as the play left it.
    If the play raised, no player is told that the game has finished. *)
Theorem run_notifications (n fuel : nat) w r w' :
  square n (board w) → run fuel w = Some (r, w') →
  ∃ t,
    trace w' = trace w ++ (EvStart <$> players w) ++ t
               ++ match r with
                  | Ok res => (λ p, EvFinish p res) <$> players w'
                  | Raise _ => []
                  end
    ∧ starts t = [] ∧ finishes t = []
    ∧ finishes (drop (length (trace w)) (trace w'))
      = match r with
        | Ok res => (λ p, (p, res)) <$> players w'
        | Raise _ => []
        end.
Proof.
  intros Hsq Hrun. unfold tictactoe.run in Hrun.
  destruct (enter_run_spec player_start n w Hsq)
    as (_ & Hinv & Hps & _ & _ & _ & _ & Htr).
  set (w1 := enter_run w) in *.
  destruct (play fuel w1) as [[r0 w3]|] eqn:Hplay; [|done].
  destruct (play_post player_move entropy n fuel w1 r0 w3 (proj1 Hinv) Hplay)
    as (_ & _ & _ & _ & _ & t & Htr3 & Hst & Hfin & _).
  exists t.
  assert (∀ l, finishes ((EvStart <$> players w) ++ t ++ l) = finishes l)
    as Hdrop.
  { intros l. rewrite !finishes_app, Hfin, finishes_starts. done. }
  destruct r0 as [res | e]; injection Hrun as <- <-.
  - destruct (notify_finish_spec player_finish res w3)
      as (_ & Hps' & _ & _ & _ & _ & Htr').
    rewrite Hps', Htr', Htr3, Htr, <- !(assoc_L (++)).
    split; [done|]. split; [done|]. split; [done|].
    rewrite drop_app_length, Hdrop. apply finishes_of_finishes.
  - rewrite Htr3, Htr, app_nil_r, <- !(assoc_L (++)).
    split; [done|]. split; [done|]. split; [done|].
    rewrite drop_app_length.
    specialize (Hdrop []). by rewrite app_nil_r in Hdrop.
Qed.

(** X16. Counting the moves of a run.  With the two players set, a run
    that returns has asked for exactly as many moves as there are marks on
    the final n × n board; a run that raises has asked for one more (the
    rejected one); and a drawn run has asked for exactly n² moves. *)
Theorem run_move_count (n fuel : nat) w r w' :
  square n (board w) → configured w → run fuel w = Some (r, w') →
  ∃ t, trace w' = trace w ++ t
    ∧ (length (moves t) + length (empty_cells (board w'))
       = n * n + match r with Raise _ => 1 | Ok _ => 0 end)%nat
    ∧ (r = Ok None → length (moves t) = (n * n)%nat).
Proof.
  intros Hsq [Hlen Hsides] Hrun. unfold tictactoe.run in Hrun.
  destruct (enter_run_spec player_start n w Hsq)
    as (Hb1 & Hinv & Hps1 & _ & _ & _ & Hside1 & Htr1).
  set (w1 := enter_run w) in *.
  destruct (play fuel w1) as [[r0 w3]|] eqn:Hplay; [|done].
  assert (players w1 ≠ []) as Hne1.
  { rewrite Hps1. intros E. by rewrite E in Hlen. }
  destruct (play_shape n fuel w1 r0 w3 (proj1 Hinv) Hplay Hne1)
    as (k & wk & p & t & mv & logs & Hpass & Hp & Hturn & Hsqk & Hsidek & Hmv
        & Htr3 & _ & Hk & Hmoves & _).
  destruct (enter_play_spec entropy w1) as (Eh & Eb & _ & _ & _ & Eperm & _).
  set (w0 := enter_play w1) in *.
  assert (∀ q, q ∈ players w0 → side (heap w0 q) ≠ EMPTY) as Hne0.
  { intros q Hq. rewrite Eh, Hside1. apply side_in_sides.
    rewrite Forall_forall in Hsides. apply Hsides.
    by rewrite <- Hps1, <- Eperm. }
  assert (square n (board w0)) as Hsq0 by (rewrite Eb; apply Hinv).
  destruct (passes_post player_move n _ _ _ _ _ Hpass Hsq0)
    as (_ & _ & _ & _ & _ & _ & Hside0 & Hemp & _).
  destruct (Hemp Hne0) as [Hcount _].
  assert (length (empty_cells (board w0)) = (n * n)%nat) as Hall.
  { rewrite Eb, Hb1, (fill_square n _ _ Hsq). apply nonzero_rows_zeros. }
  pose proof (turn_outcome player_move n p wk Hsqk) as Hout.
  rewrite Hturn in Hout. simpl in Hout.
  assert (side (heap wk p) ≠ EMPTY) as Hnep.
  { rewrite Hside0. apply Hne0. by eapply cycle_nth_elem. }
  assert (length (moves (t ++ EvMove p (board wk) mv :: logs)) = S k)
    as Hcnt.
  { rewrite Hmoves, length_app, Hk. simpl. lia. }
  assert (∃ t', trace w3 = trace w ++ (EvStart <$> players w) ++ t'
            ∧ moves ((EvStart <$> players w) ++ t') 
              = moves (t ++ EvMove p (board wk) mv :: logs)) as Hlog.
  { exists (t ++ EvMove p (board wk) mv :: logs).
    rewrite Htr3, Htr1, <- !(assoc_L (++)). split; [done|].
    by rewrite moves_app, moves_starts. }
  destruct Hlog as (t' & Htr & Hmv').
  destruct Hout as [(_ & Hb & [= ->]) | (_ & Hcons & Hcases)].
  - injection Hrun as <- <-.
    exists ((EvStart <$> players w) ++ t'). split; [done|].
    rewrite Hmv', Hcnt, Hb. split; [lia | done].
  - specialize (Hcons Hnep).
    destruct Hcases as [[= ->] | [[[= ->] Hfull] | [[=] _]]];
      injection Hrun as <- <-.
    + destruct (notify_finish_spec player_finish (Some (side (heap wk p))) w3)
        as (-> & _ & _ & _ & _ & _ & ->).
      exists (((EvStart <$> players w) ++ t')
              ++ ((λ q, EvFinish q (Some (side (heap wk p)))) <$> players w3)).
      rewrite Htr, <- !(assoc_L (++)). split; [done|].
      rewrite (assoc_L (++)), moves_app, moves_finishes, app_nil_r, Hmv', Hcnt.
      split; [lia | done].
    + destruct (notify_finish_spec player_finish None w3)
        as (-> & _ & _ & _ & _ & _ & ->).
      exists (((EvStart <$> players w) ++ t')
              ++ ((λ q, EvFinish q None) <$> players w3)).
      rewrite Htr, <- !(assoc_L (++)). split; [done|].
      rewrite (assoc_L (++)), moves_app, moves_finishes, app_nil_r, Hmv', Hcnt.
      apply board_full_iff in Hfull. rewrite Hfull in Hcons |- *.
      simpl in *. split; [lia | intros _; lia].
Qed.

(** *** The logger *)

Lemma silence_log (lv : loglevel) (msg : string) (w : World PState) :
  silence (log lv msg w) = silence w ∧ log lv msg (silence w) = silence w.
Proof.
  split; [|done]. unfold log. destruct (logger w); [|done].
  unfold silence, emit. cbn [heap board players shuffle rng trace].
  rewrite List.filter_app. simpl. by rewrite app_nil_r.
Qed.

Lemma silence_emit (e : event) (w : World PState) :
  game_event e = true → emit e (silence w) = silence (emit e w).
Proof.
  intros He. unfold silence, emit. cbn [heap board players shuffle rng trace].
  rewrite List.filter_app. simpl. by rewrite He.
Qed.

Lemma silence_turn p (w : World PState) :
  turn p (silence w)
  = match turn p w with
    | inl (r, w') => inl (r, silence w')
    | inr w' => inr (silence w')
    end.
Proof.
  unfold tictactoe.turn, tictactoe.request.
  change (heap (silence w)) with (heap w).
  change (board (silence w)) with (board w).
  destruct (player_move (heap w p) (board w)) as [mv st].
  change (with_heap (store p (set_pstate st (heap w p)) (heap w)) (silence w))
    with (silence (with_heap (store p (set_pstate st (heap w p)) (heap w)) w)).
  rewrite (silence_emit (EvMove p (board w) mv)) by done.
  set (w1 := emit _ _).
  change (heap (silence w1)) with (heap w1).
  change (board (silence w1)) with (board w1).
  destruct (valid_move (board w1) mv).
  - destruct (board_set (board w1) mv (side (heap w1 p))) as [b | e]; [|done].
    change (with_board b (silence w1)) with (silence (with_board b w1)).
    set (w2 := with_board b w1).
    change (board (silence w2)) with (board w2).
    destruct (winning_move (board w2) mv) as [[|] | e]; [| |done].
    + destruct (silence_log Info (win_msg (board w2) (heap w1 p)) w2)
        as [-> ->]. done.
    + destruct (board_full (board w2)); [|done].
      destruct (silence_log Info (draw_msg (board w2)) w2) as [-> ->]. done.
  - destruct (silence_log Fatal "Invalid move" w1) as [-> ->]. done.
Qed.

Lemma silence_play_loop (fuel : nat) ps k (w : World PState) :
  play_loop fuel ps k (silence w)
  = (λ x, (x.1, silence x.2)) <$> play_loop fuel ps k w.
Proof.
  revert k w. induction fuel as [|fuel IH]; intros k w; [done|]. simpl.
  destruct (cycle_nth ps k) as [p|]; [|done].
  rewrite silence_turn. destruct (turn p w) as [[r w'] | w']; [done|].
  apply IH.
Qed.

Lemma silence_play (fuel : nat) (w : World PState) :
  play fuel (silence w) = (λ x, (x.1, silence x.2)) <$> play fuel w.
Proof.
  unfold tictactoe.play.
  assert (enter_play (silence w) = silence (enter_play w)) as ->.
  { unfold enter_play. change (shuffle (silence w)) with (shuffle w).
    destruct (shuffle w); [|done].
    change (rng (silence w)) with (rng w).
    change (players (silence w)) with (players w).
    by destruct (random_shuffle entropy (rng w) (players w)). }
  apply silence_play_loop.
Qed.

Lemma silence_foldl (f : World PState → ref → World PState) (l : list ref)
    (w : World PState) :
  (∀ w' p, f (silence w') p = silence (f w' p)) →
  foldl f (silence w) l = silence (foldl f w l).
Proof.
  intros Hf. revert w. induction l as [|p l IH]; intros w; [done|].
  simpl. by rewrite Hf, IH.
Qed.

(** X17. The logger has no part in the game.  A run without a logger goes
    exactly as the run with one: both return or raise the same, neither
    returns unless the other does, and they leave the same board, the same
    players in the same order, the same player objects, the same position
    in the random stream and the same calls to the players; only the log
    records are missing. *)
Theorem run_ignores_logger (fuel : nat) (w : World PState) :
  run fuel (silence w) = (λ x, (x.1, silence x.2)) <$> run fuel w.
Proof.
  unfold tictactoe.run.
  assert (enter_run (silence w) = silence (enter_run w)) as ->.
  { unfold enter_run, notify_start.
    change (with_board (fill EMPTY (board (silence w))) (silence w))
      with (silence (with_board (fill EMPTY (board w)) w)).
    set (w1 := with_board _ w).
    change (players (silence w1)) with (players w1).
    apply silence_foldl. intros w' p.
    change (with_heap
              (store p (set_pstate (player_start (heap (silence w') p))
                                   (heap (silence w') p))
                     (heap (silence w'))) (silence w'))
      with (silence (with_heap
              (store p (set_pstate (player_start (heap w' p)) (heap w' p))
                     (heap w')) w')).
    by apply silence_emit. }
  rewrite silence_play.
  destruct (play fuel (enter_run w)) as [[[res | e] w3]|]; [|done|done].
  simpl. f_equal. f_equal. unfold notify_finish.
  change (players (silence w3)) with (players w3).
  apply silence_foldl. intros w' p.
  change (with_heap
            (store p (set_pstate (player_finish (heap (silence w') p) res)
                                 (heap (silence w') p))
                   (heap (silence w'))) (silence w'))
    with (silence (with_heap
            (store p (set_pstate (player_finish (heap w' p) res) (heap w' p))
                   (heap w')) w')).
  by apply silence_emit.
Qed.

End More.
End runner_more.

(** ** The further properties at concrete boards and matches *)

Module more_scenarios.
Import rules board_spec rules_facts tictactoe runner_facts.

Ltac decide_it :=
  match goal with
  | |- ?P => apply (bool_decide_unpack P); vm_compute; exact I
  end.

Lemma board_str_shape_witness :
  Forall (λ row : list Z, length row = 3%nat) samples.diagonal_o
  ∧ String.length (board_str samples.diagonal_o) = 17%nat.
Proof.
  assert (Forall (λ row : list Z, length row = 3%nat) samples.diagonal_o)
    as Hrows by decide_it.
  destruct (rules_more.board_str_shape 3 samples.diagonal_o Hrows)
    as [_ Hlen].
  split; [exact Hrows | exact Hlen].
Defined.

Lemma winning_move_index_error_witness :
  square 3 samples.diagonal_o
  ∧ winning_move samples.diagonal_o (3, 0) = Raise IndexError
  ∧ ∃ r, winning_move samples.diagonal_o (-1, -3) = Ok r.
Proof.
  assert (square 3 samples.diagonal_o) as Hsq by decide_it.
  destruct (rules_more.winning_move_index_error 3 samples.diagonal_o 3 0 Hsq)
    as (Hraise & _ & _).
  destruct (rules_more.winning_move_index_error 3 samples.diagonal_o
              (-1) (-3) Hsq) as (_ & _ & Hok).
  split; [exact Hsq|]. split.
  - apply Hraise. left. decide_it.
  - apply Hok; decide_it.
Defined.

Lemma reset_opens_every_cell_witness :
  square 3 samples.diagonal_o
  ∧ length (empty_cells (tictactoe.fill EMPTY samples.diagonal_o)) = 9%nat
  ∧ valid_move (tictactoe.fill EMPTY samples.diagonal_o) (2, 2) = true.
Proof.
  assert (square 3 samples.diagonal_o) as Hsq by decide_it.
  destruct (rules_more.reset_opens_every_cell 3 samples.diagonal_o Hsq)
    as (Hvalid & Hlen & _).
  split; [exact Hsq|]. split; [exact Hlen|].
  apply Hvalid. decide_it.
Defined.

Lemma run_forgets_previous_board_witness :
  square 3 samples.diagonal_o ∧ square 3 (board (greedy.game 3 false))
  ∧ greedy.run (λ _, 0%nat) 9 (with_board samples.diagonal_o (greedy.game 3 false))
    = greedy.run (λ _, 0%nat) 9 (greedy.game 3 false).
Proof.
  assert (square 3 samples.diagonal_o) as Hsq by decide_it.
  assert (square 3 (board (greedy.game 3 false))) as Hsq' by decide_it.
  split; [exact Hsq|]. split; [exact Hsq'|].
  exact (runner_more.run_forgets_previous_board greedy.start greedy.move
           greedy.finish (λ _, 0%nat) 3 samples.diagonal_o
           (greedy.game 3 false) 9 Hsq Hsq').
Defined.

Lemma play_on_full_board_raises_witness :
  board_full (board (with_board [[1; -1; 1]; [1; -1; -1]; [-1; 1; 1]]
                       (greedy.game 3 false))) = true
  ∧ players (with_board [[1; -1; 1]; [1; -1; -1]; [-1; 1; 1]]
               (greedy.game 3 false)) ≠ []
  ∧ (0 < 1)%nat
  ∧ ∃ e w', greedy.play (λ _, 0%nat) 1
              (with_board [[1; -1; 1]; [1; -1; -1]; [-1; 1; 1]]
                 (greedy.game 3 false)) = Some (Raise e, w')
      ∧ board w' = [[1; -1; 1]; [1; -1; -1]; [-1; 1; 1]].
Proof.
  set (w := with_board [[1; -1; 1]; [1; -1; -1]; [-1; 1; 1]]
              (greedy.game 3 false)).
  assert (board_full (board w) = true) as Hfull by reflexivity.
  assert (players w ≠ []) as Hne by decide_it.
  assert (0 < 1)%nat as Hfuel by lia.
  destruct (runner_more.play_on_full_board_raises greedy.move (λ _, 0%nat)
              w 1 Hfull Hne Hfuel) as (p & w' & _ & Hplay & Hb & _).
  split; [exact Hfull|]. split; [exact Hne|]. split; [exact Hfuel|].
  eexists _, w'. split; [exact Hplay | exact Hb].
Defined.

Lemma turn_writes_one_cell_witness :
  square 3 (board (greedy.game 3 false))
  ∧ ∃ ij, position (greedy.move (heap (greedy.game 3 false) 0%nat)
                      (board (greedy.game 3 false))).1 = Some ij
      ∧ cell (board (final_of (tictactoe.turn greedy.move 0%nat
                                 (greedy.game 3 false)))) ij
        = Some (side (heap (greedy.game 3 false) 0%nat)).
Proof.
  assert (square 3 (board (greedy.game 3 false))) as Hsq by decide_it.
  destruct (runner_more.turn_writes_one_cell greedy.move 3 0%nat
              (greedy.game 3 false) Hsq) as [_ Hvalid].
  destruct Hvalid as (ij & Hpos & _ & Hcell & _);
    [vm_compute; reflexivity|].
  split; [exact Hsq|]. exists ij. split; [exact Hpos | exact Hcell].
Defined.

Lemma play_only_fills_empty_cells_witness :
  square 3 (board (with_board [[1; 0; 0]; [0; 0; 0]; [0; 0; 0]]
                     (greedy.game 3 false)))
  ∧ greedy.play (λ _, 0%nat) 9
      (with_board [[1; 0; 0]; [0; 0; 0]; [0; 0; 0]] (greedy.game 3 false))
    = Some (Ok (Some NOUGHT),
            state_after
              (greedy.play (λ _, 0%nat) 9
                 (with_board [[1; 0; 0]; [0; 0; 0]; [0; 0; 0]]
                    (greedy.game 3 false)))
              (greedy.game 3 false))
  ∧ cell (board (state_after
              (greedy.play (λ _, 0%nat) 9
                 (with_board [[1; 0; 0]; [0; 0; 0]; [0; 0; 0]]
                    (greedy.game 3 false)))
              (greedy.game 3 false))) (0%nat, 0%nat) = Some 1.
Proof.
  set (w := with_board [[1; 0; 0]; [0; 0; 0]; [0; 0; 0]]
              (greedy.game 3 false)).
  set (w' := state_after (greedy.play (λ _, 0%nat) 9 w) (greedy.game 3 false)).
  assert (square 3 (board w)) as Hsq by decide_it.
  assert (greedy.play (λ _, 0%nat) 9 w = Some (Ok (Some NOUGHT), w'))
    as Hplay by (vm_compute; reflexivity).
  destruct (runner_more.play_only_fills_empty_cells greedy.move (λ _, 0%nat)
              3 9 w (Ok (Some NOUGHT)) w' Hsq Hplay (0%nat, 0%nat))
    as [_ Hkeep].
  split; [exact Hsq|]. split; [exact Hplay|].
  apply (Hkeep 1); [reflexivity | decide_it].
Defined.

Lemma play_alternates_witness :
  square 3 (board (greedy.game 3 false))
  ∧ greedy.play (λ _, 0%nat) 9 (greedy.game 3 false)
    = Some (Ok (Some CROSS),
            state_after (greedy.play (λ _, 0%nat) 9 (greedy.game 3 false))
              (greedy.game 3 false))
  ∧ ∃ t, trace (state_after
                  (greedy.play (λ _, 0%nat) 9 (greedy.game 3 false))
                  (greedy.game 3 false))
         = trace (greedy.game 3 false) ++ t
      ∧ ∀ i q mv, moves t !! i = Some (q, mv) →
          [0%nat; 1%nat] !! (i `mod` 2)%nat = Some q.
Proof.
  set (w := greedy.game 3 false).
  set (w' := state_after (greedy.play (λ _, 0%nat) 9 w) w).
  assert (square 3 (board w)) as Hsq by decide_it.
  assert (greedy.play (λ _, 0%nat) 9 w = Some (Ok (Some CROSS), w'))
    as Hplay by (vm_compute; reflexivity).
  destruct (runner_more.play_alternates greedy.move (λ _, 0%nat)
              3 9 w (Ok (Some CROSS)) w' Hsq Hplay)
    as (_ & Hoff & t & Htr & _ & Hwho).
  assert (players w' = [0%nat; 1%nat]) as Hps by (apply Hoff; reflexivity).
  rewrite Hps in Hwho.
  split; [exact Hsq|]. split; [exact Hplay|].
  exists t. split; [exact Htr | exact Hwho].
Defined.

Lemma play_result_is_last_move_witness :
  square 3 (board (greedy.game 3 false))
  ∧ greedy.play (λ _, 0%nat) 9 (greedy.game 3 false)
    = Some (Ok (Some CROSS),
            state_after (greedy.play (λ _, 0%nat) 9 (greedy.game 3 false))
              (greedy.game 3 false))
  ∧ players (greedy.game 3 false) ≠ []
  ∧ ∃ t p mv,
      trace (state_after
               (greedy.play (λ _, 0%nat) 9 (greedy.game 3 false))
               (greedy.game 3 false))
      = trace (greedy.game 3 false) ++ t
      ∧ last (moves t) = Some (p, mv)
      ∧ CROSS = side (heap (greedy.game 3 false) p)
      ∧ winning_move
          (board (state_after
                    (greedy.play (λ _, 0%nat) 9 (greedy.game 3 false))
                    (greedy.game 3 false))) mv = Ok true.
Proof.
  set (w := greedy.game 3 false).
  set (w' := state_after (greedy.play (λ _, 0%nat) 9 w) w).
  assert (square 3 (board w)) as Hsq by decide_it.
  assert (greedy.play (λ _, 0%nat) 9 w = Some (Ok (Some CROSS), w'))
    as Hplay by (vm_compute; reflexivity).
  assert (players w ≠ []) as Hne by decide_it.
  destruct (runner_more.play_result_is_last_move greedy.move (λ _, 0%nat)
              3 9 w (Ok (Some CROSS)) w' Hsq Hplay Hne)
    as (t & p & mv & Htr & Hlast & Hside & Hwin).
  split; [exact Hsq|]. split; [exact Hplay|]. split; [exact Hne|].
  exists t, p, mv. split; [exact Htr|]. split; [exact Hlast|].
  split; [exact Hside | exact Hwin].
Defined.

Lemma run_notifications_witness :
  square 3 (board (greedy.game 3 true))
  ∧ greedy.run (λ _, 0%nat) 9 (greedy.game 3 true)
    = Some (Ok (Some NOUGHT), greedy.after_one)
  ∧ finishes (drop (length (trace (greedy.game 3 true)))
                (trace greedy.after_one))
    = [(1%nat, Some NOUGHT); (0%nat, Some NOUGHT)].
Proof.
  assert (square 3 (board (greedy.game 3 true))) as Hsq by decide_it.
  assert (greedy.run (λ _, 0%nat) 9 (greedy.game 3 true)
          = Some (Ok (Some NOUGHT), greedy.after_one))
    as Hrun by (vm_compute; reflexivity).
  destruct (runner_more.run_notifications greedy.start greedy.move
              greedy.finish (λ _, 0%nat) 3 9 (greedy.game 3 true)
              (Ok (Some NOUGHT)) greedy.after_one Hsq Hrun)
    as (t & _ & _ & _ & Hfin).
  split; [exact Hsq|]. split; [exact Hrun|].
  rewrite Hfin. vm_compute. reflexivity.
Defined.

Lemma run_move_count_witness :
  square 3 (board (greedy.game 3 true)) ∧ configured (greedy.game 3 true)
  ∧ greedy.run (λ _, 0%nat) 9 (greedy.game 3 true)
    = Some (Ok (Some NOUGHT), greedy.after_one)
  ∧ ∃ t, trace greedy.after_one = trace (greedy.game 3 true) ++ t
      ∧ (length (moves t) + length (empty_cells (board greedy.after_one))
         = 3 * 3 + 0)%nat.
Proof.
  assert (square 3 (board (greedy.game 3 true))) as Hsq by decide_it.
  assert (configured (greedy.game 3 true)) as Hcfg by decide_it.
  assert (greedy.run (λ _, 0%nat) 9 (greedy.game 3 true)
          = Some (Ok (Some NOUGHT), greedy.after_one))
    as Hrun by (vm_compute; reflexivity).
  destruct (runner_more.run_move_count greedy.start greedy.move
              greedy.finish (λ _, 0%nat) 3 9 (greedy.game 3 true)
              (Ok (Some NOUGHT)) greedy.after_one Hsq Hcfg Hrun)
    as (t & Htr & Hcount & _).
  split; [exact Hsq|]. split; [exact Hcfg|]. split; [exact Hrun|].
  exists t. split; [exact Htr | exact Hcount].
Defined.

End more_scenarios.
